(** * The mock energy-platform server: reading store, generator and
      subscription registries

    A shallow embedding of [src/mock-server.ts].  The server keeps one global
    array [readings], a device catalog [devices] and four subscription
    registries; request handlers, socket handlers and the simulation timer
    all mutate them.  Here every handler is a function on an explicit
    [State].

    Conventions of the model:
    - a JavaScript [number] is an exact rational ([Q]); [Math.random()] and
      the clock are inputs of the function that reads them;
    - a [timestamp] is kept as the epoch-millisecond value that
      [new Date(timestamp).getTime()] yields for the stored ISO string;
    - [Map<string, Set<string>>] is a [gmap string (gset string)], a
      [Set<string>] a [gset string]. *)

From Stdlib Require Import QArith Qround Qminmax Lqa.
From stdpp Require Import gmap strings pretty list fin_maps sorting.

Set Warnings "-clear-no-such-hyp".

Local Open Scope string_scope.
Local Open Scope list_scope.
Local Open Scope Z_scope.

(** ** Types *)

Inductive ReadingType : Set := consumption | generation.

Inductive DeviceStatus : Set := active | inactive | maintenance.

Inductive DeviceType : Set := grid | solar | wind | battery.

Module EnergyReading.
Record t : Type := mk {
  id : string;
  deviceId : string;
  timestamp : Z;
  kwh : Q;
  voltage : Q;
  readingType : ReadingType
}.
End EnergyReading.

Module Device.
Record t : Type := mk {
  id : string;
  name : string;
  status : DeviceStatus;
  type : DeviceType;
  location : string;
  utilityId : string
}.
End Device.

Module AggregateStats.
Record t : Type := mk {
  deviceId : string;
  total : Q;
  average : Q;
  count : nat;
  min : Q;
  max : Q
}.
End AggregateStats.

#[global] Instance ReadingType_eq_dec : EqDecision ReadingType.
Proof. solve_decision. Defined.

#[global] Instance DeviceType_eq_dec : EqDecision DeviceType.
Proof. solve_decision. Defined.

(** ** In-memory data stores *)

Definition initial_devices : list Device.t :=
  [ Device.mk "EAGLE-200-12345" "Device 1" active grid
      "Building A - Main Entrance" "UTIL-001";
    Device.mk "EAGLE-200-67890" "Solar Panel Array" active solar
      "Building A - Rooftop" "UTIL-001";
    Device.mk "EAGLE-200-11111" "Device 2" inactive wind
      "Building B - West Wing" "UTIL-002";
    Device.mk "EAGLE-200-22222" "Battery Storage Unit" maintenance battery
      "Building C - Basement" "UTIL-003" ].

Definition MAX_READINGS_PER_DEVICE : nat := 100.

Record State : Type := mkState {
  devices : list Device.t;
  readings : list EnergyReading.t;
  deviceSubscriptions : gmap string (gset string);
  statusSubscriptions : gset string;
  alertSubscriptions : gmap string (gset string);
  roomSubscriptions : gmap string (gset string)
}.

Definition initial_state : State :=
  mkState initial_devices [] ∅ ∅ ∅ ∅.

Definition set_readings (rs : list EnergyReading.t) (st : State) : State :=
  mkState (devices st) rs (deviceSubscriptions st) (statusSubscriptions st)
    (alertSubscriptions st) (roomSubscriptions st).

(** ** Helper functions *)

(** [readings.filter((r) => r.deviceId === deviceId)] *)
Definition getDeviceReadings (deviceId : string)
    (rs : list EnergyReading.t) : list EnergyReading.t :=
  filter (λ r, EnergyReading.deviceId r = deviceId) rs.

(** The comparator of [cleanupOldReadings]:
    [new Date(a.timestamp).getTime() - new Date(b.timestamp).getTime()]. *)
Definition compareTimestamp (a b : EnergyReading.t) : Z :=
  EnergyReading.timestamp a - EnergyReading.timestamp b.

(** [Array.prototype.sort] is a stable sort: it keeps [a] before [b] whenever
    the comparator is not positive on [(a, b)].  A stable insertion sort
    computes the same array. *)
Fixpoint sort_insert (cmp : EnergyReading.t → EnergyReading.t → Z)
    (x : EnergyReading.t) (l : list EnergyReading.t) : list EnergyReading.t :=
  match l with
  | [] => [x]
  | y :: l' => if cmp x y <=? 0 then x :: y :: l' else y :: sort_insert cmp x l'
  end.

Definition array_sort (cmp : EnergyReading.t → EnergyReading.t → Z)
    (l : list EnergyReading.t) : list EnergyReading.t :=
  fold_right (sort_insert cmp) [] l.

(** [readings.findIndex((r) => r.id === id)] followed by
    [readings.splice(index, 1)] when the index is not [-1]. *)
Definition remove_by_id (rs : list EnergyReading.t) (reading : EnergyReading.t)
    : list EnergyReading.t :=
  match list_find (λ r, EnergyReading.id r = EnergyReading.id reading) rs with
  | Some (index, _) => delete index rs
  | None => rs
  end.

Definition cleanupOldReadings (deviceId : string)
    (rs : list EnergyReading.t) : list EnergyReading.t :=
  let deviceReadings := getDeviceReadings deviceId rs in
  if (MAX_READINGS_PER_DEVICE <? length deviceReadings)%nat then
    let toRemove := (length deviceReadings - MAX_READINGS_PER_DEVICE)%nat in
    let oldestReadings :=
      take toRemove (array_sort compareTimestamp deviceReadings) in
    foldl remove_by_id rs oldestReadings
  else rs.

(** [calculateAggregates]: [Math.min(...values)] and [Math.max(...values)]
    are only reached with a non-empty [values]. *)
Definition spread_min (values : list Q) : Q :=
  match values with
  | [] => 0%Q
  | v :: vs => fold_left Qmin vs v
  end.

Definition spread_max (values : list Q) : Q :=
  match values with
  | [] => 0%Q
  | v :: vs => fold_left Qmax vs v
  end.

Definition calculateAggregates (deviceId : string)
    (rs : list EnergyReading.t) : AggregateStats.t :=
  let deviceReadings := getDeviceReadings deviceId rs in
  if (length deviceReadings =? 0)%nat then
    AggregateStats.mk deviceId 0%Q 0%Q 0%nat 0%Q 0%Q
  else
    let values := EnergyReading.kwh <$> deviceReadings in
    let total := fold_left (λ sum val, (sum + val)%Q) values 0%Q in
    let average := (total / inject_Z (Z.of_nat (length values)))%Q in
    AggregateStats.mk deviceId total average (length deviceReadings)
      (spread_min values) (spread_max values).

(** [validateDeviceId]: the regular expression [/^EAGLE-200-\d{5}$/]. *)
Definition is_digit (c : Ascii.ascii) : bool :=
  ((48 <=? Ascii.nat_of_ascii c) && (Ascii.nat_of_ascii c <=? 57))%nat.

Definition all_digits (s : string) : bool :=
  forallb is_digit (String.list_ascii_of_string s).

Definition validateDeviceId (deviceId : string) : bool :=
  String.prefix "EAGLE-200-" deviceId
  && (String.length deviceId =? 15)%nat
  && all_digits (String.substring 10 5 deviceId).

(** [Math.round]: the nearest integer, a tie going to the larger one. *)
Definition Math_round (x : Q) : Q := inject_Z (Qfloor (x + (1 # 2))).

(** What one call of [generateReading] reads from its environment: the local
    hour and the instant of [new Date()], the two [Math.random()] draws (for
    [kwh] and for [voltage]) and the string built by [generateId()]. *)
Record GenInput : Type := mkGenInput {
  gen_hour : Z;
  gen_random_kwh : Q;
  gen_random_voltage : Q;
  gen_id : string;
  gen_now : Z
}.

Definition generateReading (device : Device.t) (w : GenInput)
    : EnergyReading.t :=
  let '(kwh, readingType) :=
    if decide (Device.type device = solar) then
      let hour := gen_hour w in
      if (6 <=? hour) && (hour <=? 18) then
        ((- (gen_random_kwh w * 5 + 2))%Q, generation)
      else
        (0%Q, generation)
    else
      ((gen_random_kwh w * 10 + 5)%Q, consumption) in
  EnergyReading.mk
    (gen_id w)
    (Device.id device)
    (gen_now w)
    (Math_round (kwh * 100) / 100)%Q
    (Math_round ((gen_random_voltage w * 10 + 235) * 10) / 10)%Q
    readingType.

(** ** Outbound socket events *)

(** [io.to(socketId).emit("reading:update", { deviceId, value, timestamp,
    voltage })]. *)
Record Emit : Type := mkEmit {
  emit_to : string;
  emit_deviceId : string;
  emit_value : Q;
  emit_timestamp : Z;
  emit_voltage : Q
}.

Definition reading_update (reading : EnergyReading.t) (socketId : string)
    : Emit :=
  mkEmit socketId (EnergyReading.deviceId reading) (EnergyReading.kwh reading)
    (EnergyReading.timestamp reading) (EnergyReading.voltage reading).

(** [subscribers.forEach((socketId) => io.to(socketId).emit(...))] after
    [deviceSubscriptions.get(deviceId)]; nothing is sent when the key is
    absent.  The order of delivery among the members is the order of
    [elements]. *)
Definition emit_to_subscribers (st : State) (reading : EnergyReading.t)
    : list Emit :=
  match deviceSubscriptions st !! EnergyReading.deviceId reading with
  | Some subscribers => reading_update reading <$> elements subscribers
  | None => []
  end.

(** ** REST handlers *)

Inductive Response : Type :=
  | Created (reading : EnergyReading.t)
  | CreatedBatch (created : list EnergyReading.t)
  | BadRequest (error : string)
  | NotFound (error : string).

(** The body of [POST /api/readings]; a missing field is [None]. *)
Record ReadingBody : Type := mkReadingBody {
  body_deviceId : option string;
  body_kwh : option Q;
  body_voltage : option Q;
  body_readingType : option ReadingType
}.

(** [x || dflt] on an optional number: [undefined] and [0] are falsy. *)
Definition number_or (x : option Q) (dflt : Q) : Q :=
  match x with
  | Some v => if Qeq_bool v 0 then dflt else v
  | None => dflt
  end.

(** [POST /api/readings].  [fresh_id] is the result of [generateId()], [now]
    the instant of [new Date()]. *)
Definition post_reading (fresh_id : string) (now : Z) (body : ReadingBody)
    (st : State) : Response * list Emit * State :=
  match body_deviceId body with
  | None => (BadRequest "Invalid device ID format. Must match EAGLE-200-XXXXX", [], st)
  | Some deviceId =>
    if negb (validateDeviceId deviceId) then
      (BadRequest "Invalid device ID format. Must match EAGLE-200-XXXXX", [], st)
    else
      match body_kwh body with
      | None => (BadRequest "Validation failed", [], st)
      | Some kwh =>
        if bool_decide (body_readingType body = Some consumption)
           && negb (Qle_bool 0 kwh) then
          (BadRequest "Invalid kWh value", [], st)
        else
          match list_find (λ d, Device.id d = deviceId) (devices st) with
          | None => (NotFound "Device not found", [], st)
          | Some _ =>
            let reading :=
              EnergyReading.mk fresh_id deviceId now
                (Math_round (kwh * 100) / 100)%Q
                (number_or (body_voltage body) 240)
                (default consumption (body_readingType body)) in
            let rs := cleanupOldReadings deviceId (readings st ++ [reading]) in
            let st' := set_readings rs st in
            (Created reading, emit_to_subscribers st' reading, st')
          end
      end
  end.

(** One element of the array sent to [POST /api/readings/batch]. *)
Record BatchItem : Type := mkBatchItem {
  item_deviceId : string;
  item_timestamp : option Z;
  item_kwh : Q;
  item_voltage : option Q;
  item_readingType : option ReadingType
}.

(** The reading built for one element; [fresh_id] and [now] are what the
    handler draws for it with [generateId()] and [new Date()]. *)
Definition batch_reading (fresh_id : string) (now : Z) (reading : BatchItem)
    : EnergyReading.t :=
  EnergyReading.mk fresh_id
    (item_deviceId reading)
    (default now (item_timestamp reading))
    (item_kwh reading)
    (number_or (item_voltage reading) 240)
    (default consumption (item_readingType reading)).

(** [POST /api/readings/batch] on an array: every element is pushed; the
    handler does not call [cleanupOldReadings] and emits nothing. *)
Definition post_readings_batch
    (batchReadings : list (string * Z * BatchItem)) (st : State)
    : Response * list Emit * State :=
  let created :=
    (λ '(fresh_id, now, reading), batch_reading fresh_id now reading)
      <$> batchReadings in
  (CreatedBatch created, [], set_readings (readings st ++ created) st).

(** ** WebSocket server *)

Definition set_deviceSubscriptions (m : gmap string (gset string))
    (st : State) : State :=
  mkState (devices st) (readings st) m (statusSubscriptions st)
    (alertSubscriptions st) (roomSubscriptions st).

Definition set_statusSubscriptions (s : gset string) (st : State) : State :=
  mkState (devices st) (readings st) (deviceSubscriptions st) s
    (alertSubscriptions st) (roomSubscriptions st).

Definition set_alertSubscriptions (m : gmap string (gset string))
    (st : State) : State :=
  mkState (devices st) (readings st) (deviceSubscriptions st)
    (statusSubscriptions st) m (roomSubscriptions st).

Definition set_roomSubscriptions (m : gmap string (gset string))
    (st : State) : State :=
  mkState (devices st) (readings st) (deviceSubscriptions st)
    (statusSubscriptions st) (alertSubscriptions st) m.

(** [if (!m.has(key)) m.set(key, new Set()); m.get(key)!.add(socketId)] *)
Definition registry_add (key socketId : string)
    (m : gmap string (gset string)) : gmap string (gset string) :=
  let m1 := if decide (is_Some (m !! key)) then m else <[key := ∅]> m in
  match m1 !! key with
  | Some members => <[key := members ∪ {[socketId]}]> m1
  | None => m1
  end.

(** [const s = m.get(key); if (s) s.delete(socketId)] *)
Definition registry_delete (key socketId : string)
    (m : gmap string (gset string)) : gmap string (gset string) :=
  match m !! key with
  | Some members => <[key := members ∖ {[socketId]}]> m
  | None => m
  end.

(** [m.forEach((subscribers) => subscribers.delete(socketId))] *)
Definition registry_delete_all (socketId : string)
    (m : gmap string (gset string)) : gmap string (gset string) :=
  (λ subscribers, subscribers ∖ {[socketId]}) <$> m.

(** The events a connected socket sends.  The confirmation messages the
    handlers schedule with [setTimeout] go to the sender alone and touch no
    store; they are left out, and so are [socket.join] and [socket.leave],
    which act on the rooms Socket.IO keeps for itself. *)
Inductive SocketEvent : Type :=
  | subscribe (deviceId : string)
  | unsubscribe (deviceId : string)
  | subscribe_status (deviceId : string)
  | subscribe_alerts (deviceId : string)
  | join_room (room : string)
  | leave_room (room : string)
  | disconnect
  | reading_new (reading : EnergyReading.t).

Definition on_disconnect (socketId : string) (st : State) : State :=
  mkState (devices st) (readings st)
    (registry_delete_all socketId (deviceSubscriptions st))
    (statusSubscriptions st ∖ {[socketId]})
    (registry_delete_all socketId (alertSubscriptions st))
    (registry_delete_all socketId (roomSubscriptions st)).

(** [socket.on("reading:new", ...)]: the reading is stored as the client
    sent it and broadcast to the other subscribers of its device. *)
Definition on_reading_new (socketId : string) (reading : EnergyReading.t)
    (st : State) : list Emit * State :=
  let deviceId := EnergyReading.deviceId reading in
  let st' :=
    set_readings (cleanupOldReadings deviceId (readings st ++ [reading])) st in
  (filter (λ e, emit_to e ≠ socketId) (emit_to_subscribers st' reading), st').

Definition on_socket (socketId : string) (ev : SocketEvent) (st : State)
    : list Emit * State :=
  match ev with
  | subscribe deviceId =>
      ([], set_deviceSubscriptions
             (registry_add deviceId socketId (deviceSubscriptions st)) st)
  | unsubscribe deviceId =>
      ([], set_deviceSubscriptions
             (registry_delete deviceId socketId (deviceSubscriptions st)) st)
  | subscribe_status _ =>
      ([], set_statusSubscriptions (statusSubscriptions st ∪ {[socketId]}) st)
  | subscribe_alerts deviceId =>
      ([], set_alertSubscriptions
             (registry_add deviceId socketId (alertSubscriptions st)) st)
  | join_room room =>
      ([], set_roomSubscriptions
             (registry_add room socketId (roomSubscriptions st)) st)
  | leave_room room =>
      ([], set_roomSubscriptions
             (registry_delete room socketId (roomSubscriptions st)) st)
  | disconnect => ([], on_disconnect socketId st)
  | reading_new reading => on_reading_new socketId reading st
  end.

(** ** Automatic real-time simulation *)

(** How a JavaScript call completes: with a value, or by throwing. *)
Inductive Completion (A : Type) : Type :=
  | Normal (a : A)
  | Throw (err : string).
Arguments Normal {A} a.
Arguments Throw {A} err.

(** The emit loop of the tick, guarded by
    [subscribers && subscribers.size > 0]. *)
Definition emit_simulated (st : State) (reading : EnergyReading.t)
    : list Emit :=
  match deviceSubscriptions st !! EnergyReading.deviceId reading with
  | Some subscribers =>
      if (0 <? size subscribers)%nat
      then reading_update reading <$> elements subscribers
      else []
  | None => []
  end.

(** The body of [devices.forEach((device) => { ... })] over the devices from
    index [i] on.  The callback has no [try]: when the synthesis of a device
    throws, the exception leaves [forEach] and the remaining devices are not
    visited.  [inputs i] is what the synthesis of the device at index [i]
    reads from its environment. *)
Fixpoint forEach_device
    (synth : Device.t → GenInput → Completion EnergyReading.t)
    (inputs : nat → GenInput) (i : nat) (ds : list Device.t) (st : State)
    : Completion unit * list Emit * State :=
  match ds with
  | [] => (Normal (), [], st)
  | device :: ds' =>
      match synth device (inputs i) with
      | Throw err => (Throw err, [], st)
      | Normal reading =>
          let rs :=
            cleanupOldReadings (Device.id device) (readings st ++ [reading]) in
          let st1 := set_readings rs st in
          let emitted := emit_simulated st1 reading in
          let '(c, es, st2) := forEach_device synth inputs (S i) ds' st1 in
          (c, emitted ++ es, st2)
      end
  end.

(** [simulateRealTimeReadings] for an arbitrary synthesis rule. *)
Definition simulateRealTimeReadings_with
    (synth : Device.t → GenInput → Completion EnergyReading.t)
    (inputs : nat → GenInput) (st : State)
    : Completion unit * list Emit * State :=
  forEach_device synth inputs 0 (devices st) st.

(** [simulateRealTimeReadings]: the rule is [generateReading], which always
    returns. *)
Definition simulateRealTimeReadings (inputs : nat → GenInput) (st : State)
    : Completion unit * list Emit * State :=
  simulateRealTimeReadings_with (λ d w, Normal (generateReading d w)) inputs st.

(** ** Reading-recording operations *)

(** The four ways a reading enters the store. *)
Inductive RecordOp : Type :=
  | OpCreate (fresh_id : string) (now : Z) (body : ReadingBody)
  | OpBatch (batchReadings : list (string * Z * BatchItem))
  | OpReadingNew (socketId : string) (reading : EnergyReading.t)
  | OpTick (inputs : nat → GenInput).

Definition record_step (st : State) (op : RecordOp) : State :=
  match op with
  | OpCreate fresh_id now body => (post_reading fresh_id now body st).2
  | OpBatch batchReadings => (post_readings_batch batchReadings st).2
  | OpReadingNew socketId reading => (on_reading_new socketId reading st).2
  | OpTick inputs => (simulateRealTimeReadings inputs st).2
  end.

Definition record_run (ops : list RecordOp) (st : State) : State :=
  foldl record_step st ops.

(** [history(deviceId)]: the readings of the device as the store holds
    them. *)
Definition history (deviceId : string) (st : State) : list EnergyReading.t :=
  getDeviceReadings deviceId (readings st).

(** ** Vocabulary of the statements *)

Definition ts_le (a b : EnergyReading.t) : Prop :=
  EnergyReading.timestamp a ≤ EnergyReading.timestamp b.

#[global] Instance ts_le_dec a b : Decision (ts_le a b).
Proof. unfold ts_le. apply _. Defined.

#[global] Instance Q_eq_dec : EqDecision Q.
Proof. solve_decision. Defined.

#[global] Instance EnergyReading_eq_dec : EqDecision EnergyReading.t.
Proof. solve_decision. Defined.

(** The readings one tick synthesizes for the devices from index [i] on. *)
Fixpoint tick_readings (inputs : nat → GenInput) (i : nat)
    (ds : list Device.t) : list EnergyReading.t :=
  match ds with
  | [] => []
  | device :: ds' =>
      generateReading device (inputs i) :: tick_readings inputs (S i) ds'
  end.

(** The readings an operation pushes on [readings], in order, when it runs
    in state [st]. *)
Definition pushed (st : State) (op : RecordOp) : list EnergyReading.t :=
  match op with
  | OpCreate fresh_id now body =>
      match (post_reading fresh_id now body st).1.1 with
      | Created reading => [reading]
      | _ => []
      end
  | OpBatch batchReadings =>
      (λ '(fresh_id, now, reading), batch_reading fresh_id now reading)
        <$> batchReadings
  | OpReadingNew _ reading => [reading]
  | OpTick inputs => tick_readings inputs 0 (devices st)
  end.

(** Everything a sequence of operations pushes, in order. *)
Fixpoint all_pushed (ops : list RecordOp) (st : State)
    : list EnergyReading.t :=
  match ops with
  | [] => []
  | op :: ops' => pushed st op ++ all_pushed ops' (record_step st op)
  end.

(** No device holds more than [MAX_READINGS_PER_DEVICE] readings. *)
Definition within_cap (rs : list EnergyReading.t) : Prop :=
  ∀ deviceId,
    (length (getDeviceReadings deviceId rs) ≤ MAX_READINGS_PER_DEVICE)%nat.

(** The members of a topic: the set under the key, none when the key is
    absent. *)
Definition members_of (m : gmap string (gset string)) (key : string)
    : gset string :=
  default ∅ (m !! key).

(** The three topic-keyed registries of [later] know every key of
    [earlier]. *)
Definition keys_kept (earlier later : State) : Prop :=
  dom (deviceSubscriptions earlier) ⊆ dom (deviceSubscriptions later)
  ∧ dom (alertSubscriptions earlier) ⊆ dom (alertSubscriptions later)
  ∧ dom (roomSubscriptions earlier) ⊆ dom (roomSubscriptions later).

(** ** Runs of the server *)

(** What the model follows: the events of the sockets and the recording
    operations.  The handlers that edit the device catalog touch neither
    the store nor the registries. *)

Inductive Action : Type :=
  | FromSocket (socketId : string) (ev : SocketEvent)
  | Recording (op : RecordOp).

Definition server_step (st : State) (act : Action) : State :=
  match act with
  | FromSocket socketId ev => (on_socket socketId ev st).2
  | Recording op => record_step st op
  end.

Definition server_run (acts : list Action) (st : State) : State :=
  foldl server_step st acts.

(** ** Sample data *)

Definition solar_device : Device.t :=
  Device.mk "EAGLE-200-67890" "Solar Panel Array" active solar
    "Building A - Rooftop" "UTIL-001".

Definition grid_device : Device.t :=
  Device.mk "EAGLE-200-12345" "Device 1" active grid
    "Building A - Main Entrance" "UTIL-001".

(** A store of [n] readings of one device, newest first: identifiers
    [reading-0 .. reading-(n-1)], the reading at position [k] stamped
    [n - 1 - k]. *)
Definition sample_reading (n k : nat) : EnergyReading.t :=
  EnergyReading.mk ("reading-" +:+ pretty k) "EAGLE-200-12345"
    (Z.of_nat (n - 1 - k)) 10%Q 240%Q consumption.

Definition sample_store (n : nat) : list EnergyReading.t :=
  sample_reading n <$> seq 0 n.

(** A batch body of [n] readings for the device [EAGLE-200-12345], with the
    identifiers and instants the handler draws for them. *)
Definition sample_batch (n : nat) : list (string * Z * BatchItem) :=
  (λ k, ("reading-" +:+ pretty k, Z.of_nat k,
         mkBatchItem "EAGLE-200-12345" None 10%Q None None)) <$> seq 0 n.

(** The environment of the device at index [i] in a tick that starts at
    instant [now]: hour 12, both draws one half. *)
Definition sample_inputs (now : Z) (i : nat) : GenInput :=
  mkGenInput 12 (1 # 2) (1 # 2) ("reading-" +:+ pretty now +:+ "-" +:+ pretty i)
    (now + Z.of_nat i).

Definition sample_ops : list RecordOp :=
  [ OpCreate "reading-1000-a" 1000
      (mkReadingBody (Some "EAGLE-200-12345") (Some 7.5%Q) None None);
    OpTick (sample_inputs 2000);
    OpReadingNew "socket-1"
      (EnergyReading.mk "reading-c" "EAGLE-200-12345" 3000 8%Q 240%Q consumption);
    OpTick (sample_inputs 7000) ].

(** A store of 101 readings of one device as 101 [reading:new] events leave
    it before eviction: the first and the last carry the same identifier,
    the first being the newest of all and the last the oldest. *)
Definition duplicate_id_store : list EnergyReading.t :=
  EnergyReading.mk "reading-dup" "EAGLE-200-12345" 999 10%Q 240%Q consumption
  :: ((λ k, EnergyReading.mk ("reading-" +:+ pretty k) "EAGLE-200-12345"
              (Z.of_nat (S k)) 10%Q 240%Q consumption) <$> seq 0 99)
  ++ [EnergyReading.mk "reading-dup" "EAGLE-200-12345" 0 10%Q 240%Q
        consumption].

(** An action that does not take [socketId] out of the topic of
    [deviceId]: anything but its own [unsubscribe] from that device and its
    own [disconnect]. *)
Definition keeps_subscription (socketId deviceId : string) (act : Action)
    : Prop :=
  match act with
  | FromSocket s (unsubscribe d) => ¬ (s = socketId ∧ d = deviceId)
  | FromSocket s disconnect => s ≠ socketId
  | _ => True
  end.

(** ** Proof tools *)

(** Division by the constant 100, as linear arithmetic reads it. *)
Ltac hundredths := unfold Qdiv; change (/ 100)%Q with (1 # 100)%Q.

(** ** Read handlers and the device catalog *)

#[global] Instance DeviceStatus_eq_dec : EqDecision DeviceStatus.
Proof. solve_decision. Defined.

(** The answer of a handler that reads or edits one resource. *)
Inductive Reply (A : Type) : Type :=
  | Ok (body : A)
  | Status400 (error : string)
  | Status404 (error : string).
Arguments Ok {A} body.
Arguments Status400 {A} error.
Arguments Status404 {A} error.

(** [GET /api/readings/:deviceId] *)
Definition get_readings (deviceId : string) (st : State)
    : Reply (list EnergyReading.t) :=
  if negb (validateDeviceId deviceId) then
    Status400 "Invalid device ID format"
  else
    let deviceReadings := getDeviceReadings deviceId (readings st) in
    if (length deviceReadings =? 0)%nat then
      Status404 "No readings found for this device"
    else Ok deviceReadings.

(** [GET /api/readings/:deviceId/aggregate] *)
Definition get_aggregate (deviceId : string) (st : State)
    : Reply AggregateStats.t :=
  if negb (validateDeviceId deviceId) then
    Status400 "Invalid device ID format"
  else Ok (calculateAggregates deviceId (readings st)).

(** [GET /api/devices/:id] *)
Definition get_device (id : string) (st : State) : Reply Device.t :=
  match list_find (λ d, Device.id d = id) (devices st) with
  | Some (_, device) => Ok device
  | None => Status404 "Device not found"
  end.

Definition set_devices (ds : list Device.t) (st : State) : State :=
  mkState ds (readings st) (deviceSubscriptions st) (statusSubscriptions st)
    (alertSubscriptions st) (roomSubscriptions st).

(** The fields a body may set on a device; an absent field is [None]. *)
Record DevicePatch : Type := mkDevicePatch {
  patch_name : option string;
  patch_status : option DeviceStatus;
  patch_type : option DeviceType;
  patch_location : option string;
  patch_utilityId : option string
}.

(** [{ ...device, ...body, id }] *)
Definition patched (device : Device.t) (body : DevicePatch) (id : string)
    : Device.t :=
  Device.mk id
    (default (Device.name device) (patch_name body))
    (default (Device.status device) (patch_status body))
    (default (Device.type device) (patch_type body))
    (default (Device.location device) (patch_location body))
    (default (Device.utilityId device) (patch_utilityId body)).

(** [PUT /api/devices/:id] *)
Definition put_device (id : string) (body : DevicePatch) (st : State)
    : Reply Device.t * State :=
  match list_find (λ d, Device.id d = id) (devices st) with
  | None => (Status404 "Device not found", st)
  | Some (deviceIndex, device) =>
      let updated := patched device body id in
      (Ok updated, set_devices (<[deviceIndex := updated]> (devices st)) st)
  end.

(** ** GraphQL resolvers *)

(** The comparator of the resolvers:
    [new Date(b.timestamp).getTime() - new Date(a.timestamp).getTime()]. *)
Definition compareNewestFirst (a b : EnergyReading.t) : Z :=
  EnergyReading.timestamp b - EnergyReading.timestamp a.

(** A device as the resolvers return it: [{ ...device, lastReading,
    readings }]. *)
Record DeviceView : Type := mkDeviceView {
  view_device : Device.t;
  view_lastReading : option EnergyReading.t;
  view_readings : list EnergyReading.t
}.

(** The resolvers sort [deviceReadings] in place when it is not empty, so
    the [readings] they return are the sorted ones. *)
Definition device_view (device : Device.t) (st : State) : DeviceView :=
  let deviceReadings := getDeviceReadings (Device.id device) (readings st) in
  if (0 <? length deviceReadings)%nat then
    let sorted := array_sort compareNewestFirst deviceReadings in
    mkDeviceView device (head sorted) sorted
  else mkDeviceView device None deviceReadings.


(** [DeviceFilter]: each field, when present, is an array of which the
    resolver reads the first element.  A string that names no type (or no
    status) selects what the empty array selects: nothing. *)
Record DeviceFilter : Type := mkDeviceFilter {
  filter_type : option (list DeviceType);
  filter_status : option (list DeviceStatus)
}.

Definition filter_devices (filter_arg : option DeviceFilter)
    (ds : list Device.t) : list Device.t :=
  match filter_arg with
  | None => ds
  | Some f =>
      let by_type :=
        match filter_type f with
        | Some types =>
            filter (λ d, Some (Device.type d) = head types) ds
        | None => ds
        end in
      match filter_status f with
      | Some statuses =>
          filter (λ d, Some (Device.status d) = head statuses) by_type
      | None => by_type
      end
  end.

(** [Array.prototype.slice(start, end)]: a negative index counts from the
    end, and both indices are clamped to the array. *)
Definition slice_index (len k : Z) : Z :=
  if k <? 0 then Z.max (len + k) 0 else Z.min k len.

Definition array_slice {A : Type} (start end_ : Z) (l : list A) : list A :=
  let len := Z.of_nat (length l) in
  let from := slice_index len start in
  let to := slice_index len end_ in
  take (Z.to_nat (to - from)) (drop (Z.to_nat from) l).

Record DevicesResponse : Type := mkDevicesResponse {
  items : list DeviceView;
  total : nat
}.

(** The query [devices(filter, limit, offset)]: [offset || 0] and
    [limit ? start + limit : filteredDevices.length]. *)
Definition graphql_devices (filter_arg : option DeviceFilter)
    (limit offset : option Z) (st : State) : DevicesResponse :=
  let filteredDevices := filter_devices filter_arg (devices st) in
  let start := default 0 offset in
  let end_ :=
    match limit with
    | Some n => if n =? 0 then Z.of_nat (length filteredDevices) else start + n
    | None => Z.of_nat (length filteredDevices)
    end in
  let paginatedDevices := array_slice start end_ filteredDevices in
  mkDevicesResponse ((λ device, device_view device st) <$> paginatedDevices)
    (length filteredDevices).

(** ** Status events *)

(** [io.to(socketId).emit(event, { deviceId, status, timestamp })] *)
Record StatusEmit : Type := mkStatusEmit {
  status_event : string;
  status_to : string;
  status_deviceId : string;
  status_status : DeviceStatus;
  status_timestamp : Z
}.

(** [statusSubscriptions.forEach(...)]: one event per member; [clock k] is
    the instant [new Date()] yields at the [k]-th emit. *)
Definition emit_status (event deviceId : string) (status : DeviceStatus)
    (clock : nat → Z) (st : State) : list StatusEmit :=
  imap (λ k socketId, mkStatusEmit event socketId deviceId status (clock k))
    (elements (statusSubscriptions st)).

(** [socket.on("device:update-status", ...)] *)
Definition on_device_update_status (deviceId : string) (status : DeviceStatus)
    (clock : nat → Z) (st : State) : list StatusEmit * State :=
  match list_find (λ d, Device.id d = deviceId) (devices st) with
  | None => ([], st)
  | Some (index, device) =>
      let updated :=
        Device.mk (Device.id device) (Device.name device) status
          (Device.type device) (Device.location device)
          (Device.utilityId device) in
      let st' := set_devices (<[index := updated]> (devices st)) st in
      (emit_status "device:status" deviceId status clock st', st')
  end.

(** [DeviceUpdateInput] of the mutation [updateDevice]. *)
Record DeviceUpdateInput : Type := mkDeviceUpdateInput {
  input_name : option string;
  input_status : option DeviceStatus;
  input_type : option DeviceType;
  input_location : option string
}.

(** The mutation [updateDevice(id, input)]: it throws for an unknown
    device, and notifies the status subscribers when the input sets a
    status.  The result is the view of the device with its [updatedAt]
    instant, read from the clock after the emits. *)
Definition graphql_updateDevice (id : string) (input : DeviceUpdateInput)
    (clock : nat → Z) (st : State)
    : Completion (DeviceView * Z) * list StatusEmit * State :=
  match list_find (λ d, Device.id d = id) (devices st) with
  | None => (Throw "Device not found", [], st)
  | Some (deviceIndex, device) =>
      let updated :=
        patched device
          (mkDevicePatch (input_name input) (input_status input)
             (input_type input) (input_location input) None) id in
      let st' := set_devices (<[deviceIndex := updated]> (devices st)) st in
      let emitted :=
        match input_status input with
        | Some _ =>
            emit_status "status:update" id (Device.status updated) clock st'
        | None => []
        end in
      (Normal (device_view updated st', clock (length emitted)), emitted, st')
  end.

(** The operations that run [cleanupOldReadings] after they push: all but
    the batch. *)
Definition evicting (op : RecordOp) : bool :=
  match op with
  | OpBatch _ => false
  | _ => true
  end.

#[global] Instance Emit_eq_dec : EqDecision Emit.
Proof. solve_decision. Defined.

(** A state in which [socket-1] follows the first device of the catalog and
    [socket-2] follows it too. *)
Definition sample_subscribed : State :=
  server_run
    [ FromSocket "socket-1" (subscribe "EAGLE-200-12345");
      FromSocket "socket-2" (subscribe "EAGLE-200-12345");
      FromSocket "socket-2" (subscribe_status "EAGLE-200-12345") ]
    initial_state.

(** One step of matching a literal prefix against a string. *)
Ltac prefix_step H s :=
  let c := fresh "c" in
  destruct s as [|c s]; cbn [String.prefix] in H; [discriminate H|];
  destruct (Ascii.ascii_dec _ c); [subst c|discriminate H].

(** Division by the constant 10, as linear arithmetic reads it. *)
Ltac tenths := unfold Qdiv; change (/ 10)%Q with (1 # 10)%Q.

(** Order of two readings, newest first. *)
Definition ts_ge (a b : EnergyReading.t) : Prop := ts_le b a.

(** A device passes the filter of the query [devices]. *)
Definition matches_filter (filter_arg : option DeviceFilter) (d : Device.t)
    : Prop :=
  match filter_arg with
  | None => True
  | Some f =>
      (∀ types, filter_type f = Some types →
                head types = Some (Device.type d))
      ∧ (∀ statuses, filter_status f = Some statuses →
                     head statuses = Some (Device.status d))
  end.

(** * Properties *)

(** ** The reading store *)

#[global] Instance ts_le_trans : Transitive ts_le.
Proof. unfold ts_le. intros a b c Hab Hbc. lia. Qed.

Lemma sort_insert_Permutation cmp x l : sort_insert cmp x l ≡ₚ x :: l.
Proof.
  induction l as [|y l IH]; simpl; [done|].
  destruct (cmp x y <=? 0); [done|].
  rewrite IH. apply Permutation_swap.
Qed.

Lemma array_sort_Permutation cmp l : array_sort cmp l ≡ₚ l.
Proof.
  induction l as [|x l IH]; simpl; [done|].
  rewrite sort_insert_Permutation. by f_equiv.
Qed.




Lemma remove_by_id_sublist rs reading : remove_by_id rs reading `sublist_of` rs.
Proof.
  unfold remove_by_id.
  destruct (list_find _ rs) as [[index r]|]; [|done].
  apply sublist_delete.
Qed.

Lemma remove_by_id_elem_of rs reading x :
  x ∈ remove_by_id rs reading → x ∈ rs.
Proof. intros Hx. eapply elem_of_sublist; [exact Hx|apply remove_by_id_sublist]. Qed.

Lemma foldl_remove_by_id_sublist oldest rs :
  foldl remove_by_id rs oldest `sublist_of` rs.
Proof.
  revert rs. induction oldest as [|o oldest IH]; intros rs; simpl; [done|].
  etrans; [apply IH|apply remove_by_id_sublist].
Qed.

Lemma cleanupOldReadings_sublist deviceId rs :
  cleanupOldReadings deviceId rs `sublist_of` rs.
Proof.
  unfold cleanupOldReadings.
  destruct (_ <? _)%nat; [apply foldl_remove_by_id_sublist|done].
Qed.

Lemma NoDup_ids_sublist (l k : list EnergyReading.t) :
  l `sublist_of` k →
  NoDup (EnergyReading.id <$> k) → NoDup (EnergyReading.id <$> l).
Proof.
  intros Hsub Hnd. eapply sublist_NoDup; [exact Hnd|]. by apply fmap_sublist.
Qed.

Lemma NoDup_ids_inj (rs : list EnergyReading.t) x y :
  NoDup (EnergyReading.id <$> rs) → x ∈ rs → y ∈ rs →
  EnergyReading.id x = EnergyReading.id y → x = y.
Proof.
  intros Hnd Hx Hy Heq.
  apply list_elem_of_lookup in Hx as [i Hi], Hy as [j Hj].
  assert (i = j) as ->.
  { eapply NoDup_lookup; [exact Hnd| |].
    - rewrite list_lookup_fmap, Hi. reflexivity.
    - rewrite list_lookup_fmap, Hj. simpl. by rewrite Heq. }
  congruence.
Qed.

Lemma NoDup_ids_NoDup (rs : list EnergyReading.t) :
  NoDup (EnergyReading.id <$> rs) → NoDup rs.
Proof. apply NoDup_fmap_1. Qed.

(** With distinct identifiers, [findIndex] + [splice] removes exactly the
    reading that carries the identifier. *)
Lemma remove_by_id_spec rs reading x :
  NoDup (EnergyReading.id <$> rs) →
  x ∈ remove_by_id rs reading ↔
  x ∈ rs ∧ EnergyReading.id x ≠ EnergyReading.id reading.
Proof.
  intros Hnd. unfold remove_by_id.
  destruct (list_find _ rs) as [[index r]|] eqn:Hfind.
  - apply list_find_Some in Hfind as (Hi & Hid & _).
    pose proof (take_drop_middle rs index r Hi) as Hrs.
    rewrite delete_take_drop.
    set (l1 := take index rs) in *. set (l2 := drop (S index) rs) in *.
    clearbody l1 l2. subst rs.
    rewrite fmap_app, fmap_cons in Hnd.
    apply NoDup_app in Hnd as (_ & Hl & Hr).
    apply NoDup_cons in Hr as [Hr _].
    rewrite !elem_of_app, elem_of_cons. split.
    + intros Hx. split; [tauto|]. intros Heq. rewrite <- Hid in Heq.
      destruct Hx as [Hx|Hx].
      * apply (Hl (EnergyReading.id x)); [by apply list_elem_of_fmap_2|].
        rewrite Heq. apply elem_of_cons. by left.
      * apply Hr. rewrite <- Heq. by apply list_elem_of_fmap_2.
    + intros [[Hx|[->|Hx]] Hne]; [by left| |by right].
      by rewrite Hid in Hne.
  - apply list_find_None in Hfind. split; [|tauto].
    intros Hx. split; [done|].
    rewrite Forall_forall in Hfind. by apply Hfind.
Qed.

Lemma foldl_remove_by_id_spec oldest rs x :
  NoDup (EnergyReading.id <$> rs) →
  x ∈ foldl remove_by_id rs oldest ↔
  x ∈ rs ∧ EnergyReading.id x ∉ EnergyReading.id <$> oldest.
Proof.
  revert rs. induction oldest as [|o oldest IH]; intros rs Hnd; simpl.
  - split; [|tauto]. intros Hx. split; [done|]. apply not_elem_of_nil.
  - rewrite IH by (eapply NoDup_ids_sublist; [apply remove_by_id_sublist|done]).
    rewrite remove_by_id_spec by done.
    rewrite not_elem_of_cons. tauto.
Qed.

(** What eviction leaves of a device's history when identifiers are
    distinct: the part of the time-sorted history past the evicted prefix. *)
Lemma cleanupOldReadings_retained deviceId rs :
  NoDup (EnergyReading.id <$> rs) →
  let deviceReadings := getDeviceReadings deviceId rs in
  let toRemove := (length deviceReadings - MAX_READINGS_PER_DEVICE)%nat in
  getDeviceReadings deviceId (cleanupOldReadings deviceId rs)
  ≡ₚ drop toRemove (array_sort compareTimestamp deviceReadings).
Proof.
  intros Hnd deviceReadings toRemove.
  assert (NoDup deviceReadings) as Hnd_dev.
  { apply NoDup_filter. by apply NoDup_ids_NoDup. }
  assert (NoDup (array_sort compareTimestamp deviceReadings)) as Hnd_sort.
  { by rewrite array_sort_Permutation. }
  unfold cleanupOldReadings. fold deviceReadings. fold toRemove.
  destruct (Nat.ltb_spec MAX_READINGS_PER_DEVICE (length deviceReadings))
    as [Hlt|Hge].
  - apply NoDup_Permutation.
    + apply NoDup_filter. eapply sublist_NoDup; [by apply NoDup_ids_NoDup|].
      apply foldl_remove_by_id_sublist.
    + eapply sublist_NoDup; [exact Hnd_sort|apply sublist_drop].
    + intros x. unfold getDeviceReadings at 1.
      rewrite list_elem_of_filter, foldl_remove_by_id_spec by done.
      rewrite <- (take_drop toRemove (array_sort _ _)) in Hnd_sort.
      apply NoDup_app in Hnd_sort as (_ & Hdisj & _).
      assert (∀ y, y ∈ array_sort compareTimestamp deviceReadings ↔
                   y ∈ rs ∧ EnergyReading.deviceId y = deviceId) as Hmem.
      { intros y. rewrite array_sort_Permutation. unfold deviceReadings,
          getDeviceReadings. rewrite list_elem_of_filter. tauto. }
      split.
      * intros (Hdev & Hx & Hid).
        assert (x ∈ array_sort compareTimestamp deviceReadings) as Hs
          by (apply Hmem; done).
        rewrite <- (take_drop toRemove (array_sort _ _)) in Hs.
        apply elem_of_app in Hs as [Hs|Hs]; [|done].
        exfalso. apply Hid. by apply list_elem_of_fmap_2.
      * intros Hx.
        assert (x ∈ array_sort compareTimestamp deviceReadings) as Hs.
        { eapply elem_of_sublist; [exact Hx|apply sublist_drop]. }
        apply Hmem in Hs as [Hrs Hdev]. split_and!; [done..|].
        intros Hid. apply list_elem_of_fmap in Hid as (y & Heq & Hy).
        assert (y ∈ array_sort compareTimestamp deviceReadings) as Hys.
        { eapply elem_of_sublist; [exact Hy|apply sublist_take]. }
        apply Hmem in Hys as [Hyrs _].
        assert (x = y) as -> by (eapply NoDup_ids_inj; eauto).
        by apply (Hdisj y).
  - replace toRemove with 0%nat by (unfold toRemove; lia).
    rewrite drop_0. by rewrite array_sort_Permutation.
Qed.

(** After eviction a device with distinct identifiers holds at most
    [MAX_READINGS_PER_DEVICE] readings, and exactly that many when it held
    more. *)
Lemma cleanupOldReadings_length deviceId rs :
  NoDup (EnergyReading.id <$> rs) →
  length (getDeviceReadings deviceId (cleanupOldReadings deviceId rs))
  = (length (getDeviceReadings deviceId rs) `min` MAX_READINGS_PER_DEVICE)%nat.
Proof.
  intros Hnd. rewrite (cleanupOldReadings_retained deviceId rs Hnd).
  rewrite length_drop, array_sort_Permutation. lia.
Qed.

Lemma getDeviceReadings_sublist deviceId (l k : list EnergyReading.t) :
  l `sublist_of` k →
  getDeviceReadings deviceId l `sublist_of` getDeviceReadings deviceId k.
Proof.
  unfold getDeviceReadings. induction 1 as [|x l k _ IH|x l k _ IH].
  - done.
  - rewrite !filter_cons. destruct (decide _); [by constructor|done].
  - rewrite filter_cons. destruct (decide _); [by constructor|done].
Qed.

(** The step shared by [POST /api/readings], [reading:new] and the tick, a
    push followed by the eviction for the pushed reading's device, keeps
    every device within the cap (identifiers being distinct). *)
Lemma push_then_cleanup_within_cap rs reading :
  NoDup (EnergyReading.id <$> rs ++ [reading]) →
  within_cap rs →
  within_cap (cleanupOldReadings (EnergyReading.deviceId reading)
                (rs ++ [reading])).
Proof.
  intros Hnd Hcap deviceId.
  destruct (decide (deviceId = EnergyReading.deviceId reading)) as [->|Hne].
  - rewrite cleanupOldReadings_length by done. lia.
  - etrans; [|apply (Hcap deviceId)].
    etrans; [apply sublist_length, getDeviceReadings_sublist,
               cleanupOldReadings_sublist|].
    unfold getDeviceReadings. rewrite filter_app, filter_cons_False by done.
    by rewrite filter_nil, app_nil_r.
Qed.



(** That store is the one the server reaches when the 101 readings arrive
    one after the other as [reading:new] events. *)
Example duplicate_ids_by_reading_new :
  readings (record_run (OpReadingNew "socket-1" <$> duplicate_id_store)
              initial_state)
  = cleanupOldReadings "EAGLE-200-12345" duplicate_id_store.
Proof. vm_compute. reflexivity. Qed.



(** C1.  On a fresh server one [POST /api/readings/batch] with 101 readings
    for one device leaves 101 readings in that device's history: the batch
    handler pushes without calling [cleanupOldReadings]. *)
Theorem batch_create_exceeds_cap :
  length (history "EAGLE-200-12345"
            (record_run [OpBatch (sample_batch 101)] initial_state)) = 101%nat.
Proof. vm_compute. reflexivity. Qed.

(** ** Order of a device's history *)

Lemma forEach_device_generate_sublist inputs ds i st :
  readings (forEach_device (λ d w, Normal (generateReading d w)) inputs i ds st).2
  `sublist_of` readings st ++ tick_readings inputs i ds.
Proof.
  revert i st. induction ds as [|device ds IH]; intros i st; simpl.
  - by rewrite app_nil_r.
  - specialize (IH (S i) (set_readings (cleanupOldReadings (Device.id device)
      (readings st ++ [generateReading device (inputs i)])) st)).
    destruct (forEach_device _ inputs (S i) ds _) as [[c es] st2]. simpl in *.
    etrans; [exact IH|].
    replace (readings st ++ generateReading device (inputs i)
               :: tick_readings inputs (S i) ds)
      with ((readings st ++ [generateReading device (inputs i)])
              ++ tick_readings inputs (S i) ds)
      by (by rewrite <- app_assoc).
    apply sublist_app; [apply cleanupOldReadings_sublist|done].
Qed.

Lemma record_step_sublist st op :
  readings (record_step st op) `sublist_of` readings st ++ pushed st op.
Proof.
  destruct op as [fresh_id now body|batchReadings|socketId reading|inputs]; simpl.
  - unfold post_reading.
    destruct (body_deviceId body) as [deviceId|]; simpl;
      [|by apply sublist_inserts_r].
    destruct (validateDeviceId deviceId); simpl; [|by apply sublist_inserts_r].
    destruct (body_kwh body) as [kwh|]; simpl; [|by apply sublist_inserts_r].
    destruct (_ && _); simpl; [by apply sublist_inserts_r|].
    destruct (list_find _ (devices st)); simpl; [|by apply sublist_inserts_r].
    apply cleanupOldReadings_sublist.
  - done.
  - apply cleanupOldReadings_sublist.
  - apply forEach_device_generate_sublist.
Qed.

(** The store is always a subsequence of everything pushed so far. *)
Lemma record_run_sublist ops st :
  readings (record_run ops st) `sublist_of` readings st ++ all_pushed ops st.
Proof.
  revert st. induction ops as [|op ops IH]; intros st; simpl.
  - by rewrite app_nil_r.
  - etrans; [apply IH|]. rewrite app_assoc.
    apply sublist_app; [apply record_step_sublist|done].
Qed.

Lemma Sorted_ts_le_sublist (l k : list EnergyReading.t) :
  l `sublist_of` k → Sorted ts_le k → Sorted ts_le l.
Proof.
  intros Hsub Hk. apply Sorted_StronglySorted in Hk; [|apply _].
  apply StronglySorted_Sorted. revert l Hsub.
  induction Hk as [|x k Hk IH Hx]; intros l Hsub.
  - apply sublist_nil_r in Hsub as ->. constructor.
  - apply sublist_cons_r in Hsub as [Hsub|(l' & -> & Hsub)]; [by apply IH|].
    constructor; [by apply IH|].
    rewrite Forall_forall in Hx |- *. intros y Hy. apply Hx.
    eapply elem_of_sublist; eauto.
Qed.

(** C8, as stated, fails: a batch whose elements carry their own
    timestamps, newest first, is stored in the order it was sent. *)
Lemma history_not_always_sorted :
  ¬ (∀ ops deviceId,
       Sorted ts_le (history deviceId (record_run ops initial_state))).
Proof.
  intros Hsorted.
  specialize (Hsorted
    [OpBatch
       [("reading-a", 5000,
         mkBatchItem "EAGLE-200-12345" (Some 2000) 10%Q None None);
        ("reading-b", 5000,
         mkBatchItem "EAGLE-200-12345" (Some 1000) 11%Q None None)]]
    "EAGLE-200-12345").
  revert Hsorted. compute_done.
Qed.

(** C8, amended.  [history(deviceId)] keeps the device's readings in the
    order they were pushed; it is sorted non-decreasing by timestamp
    whenever the readings pushed for that device, in push order after those
    already stored, have non-decreasing timestamps. *)
Theorem history_sorted_when_pushed_in_time_order ops st deviceId :
  Sorted ts_le (getDeviceReadings deviceId (readings st ++ all_pushed ops st)) →
  Sorted ts_le (history deviceId (record_run ops st)).
Proof.
  intros Hsorted. unfold history.
  eapply Sorted_ts_le_sublist; [|exact Hsorted].
  apply getDeviceReadings_sublist, record_run_sublist.
Qed.

Lemma history_sorted_when_pushed_in_time_order_witness :
  Sorted ts_le (history "EAGLE-200-12345" (record_run sample_ops initial_state)).
Proof.
  apply history_sorted_when_pushed_in_time_order. compute_done.
Defined.

(** ** The aggregator *)

(** C7.  When the store holds no reading of [deviceId] (a known device with
    an empty history or an identifier of no device), [calculateAggregates]
    returns the record with [count], [total], [average], [min] and [max]
    all zero. *)
Theorem calculateAggregates_empty deviceId rs :
  getDeviceReadings deviceId rs = [] →
  calculateAggregates deviceId rs
  = AggregateStats.mk deviceId 0%Q 0%Q 0%nat 0%Q 0%Q.
Proof.
  intros Hempty. unfold calculateAggregates. by rewrite Hempty.
Qed.

Lemma calculateAggregates_empty_witness :
  calculateAggregates "EAGLE-200-99999" (sample_store 3)
  = AggregateStats.mk "EAGLE-200-99999" 0%Q 0%Q 0%nat 0%Q 0%Q.
Proof.
  apply calculateAggregates_empty. vm_compute. reflexivity.
Defined.

(** The history [5, 10, 15] aggregates to count 3, total 30, average 10,
    minimum 5 and maximum 15. *)
Example calculateAggregates_5_10_15 :
  let stats :=
    calculateAggregates "d"
      [ EnergyReading.mk "a" "d" 1 5%Q 240%Q consumption;
        EnergyReading.mk "b" "d" 2 10%Q 240%Q consumption;
        EnergyReading.mk "c" "d" 3 15%Q 240%Q consumption ] in
  AggregateStats.count stats = 3%nat
  ∧ (AggregateStats.total stats == 30)%Q
  ∧ (AggregateStats.average stats == 10)%Q
  ∧ (AggregateStats.min stats == 5)%Q
  ∧ (AggregateStats.max stats == 15)%Q.
Proof. vm_compute. repeat split; discriminate. Qed.

(** ** The generator *)

Lemma Math_round_ge (a : Z) (x : Q) :
  (inject_Z a <= x)%Q → (inject_Z a <= Math_round x)%Q.
Proof.
  intros Hax. unfold Math_round. rewrite <- Zle_Qle.
  rewrite <- (Qfloor_Z a). apply Qfloor_resp_le. lra.
Qed.

Lemma Math_round_le (b : Z) (x : Q) :
  (x <= inject_Z b)%Q → (Math_round x <= inject_Z b)%Q.
Proof.
  intros Hxb. unfold Math_round. rewrite <- Zle_Qle.
  apply Z.lt_succ_r. rewrite Zlt_Qlt.
  pose proof (Qfloor_le (x + (1 # 2))) as Hfloor.
  unfold Z.succ. rewrite inject_Z_plus. change (inject_Z 1) with 1%Q. lra.
Qed.

(** What the solar rule does: from hour 6 to hour 18, both included, the
    reading is a generation between -7 and -2 kWh. *)
Lemma generateReading_solar_daytime device w :
  Device.type device = solar →
  6 ≤ gen_hour w ≤ 18 →
  (0 <= gen_random_kwh w)%Q → (gen_random_kwh w < 1)%Q →
  EnergyReading.readingType (generateReading device w) = generation
  ∧ (-7 <= EnergyReading.kwh (generateReading device w))%Q
  ∧ (EnergyReading.kwh (generateReading device w) <= -2)%Q.
Proof.
  intros Hsolar [H6 H18] Hu0 Hu1. unfold generateReading.
  destruct (decide _) as [_|]; [|done].
  rewrite (proj2 (Z.leb_le _ _) H6), (proj2 (Z.leb_le _ _) H18). simpl.
  split; [done|].
  pose proof (Math_round_ge (-700) (- (gen_random_kwh w * 5 + 2) * 100)%Q) as Hlo.
  pose proof (Math_round_le (-200) (- (gen_random_kwh w * 5 + 2) * 100)%Q) as Hhi.
  change (inject_Z (-700)) with (-700)%Q in Hlo.
  change (inject_Z (-200)) with (-200)%Q in Hhi.
  hundredths. split; lra.
Qed.

(** Before hour 6 and after hour 18 the solar rule yields a generation
    reading of 0 kWh. *)
Lemma generateReading_solar_night device w :
  Device.type device = solar →
  gen_hour w < 6 ∨ 18 < gen_hour w →
  EnergyReading.readingType (generateReading device w) = generation
  ∧ (EnergyReading.kwh (generateReading device w) == 0)%Q.
Proof.
  intros Hsolar Hnight. unfold generateReading.
  destruct (decide _) as [_|]; [|done].
  assert ((6 <=? gen_hour w) && (gen_hour w <=? 18) = false) as ->.
  { apply andb_false_iff. rewrite !Z.leb_gt. lia. }
  simpl. split; reflexivity.
Qed.

(** C3, as stated, fails: at local hour 18 the guard [hour <= 18] still
    holds, and with the draw 0 the solar rule yields -2 kWh, not 0. *)
Lemma solar_hour_18_is_daytime :
  ¬ (∀ device w,
       Device.type device = solar →
       (0 <= gen_random_kwh w)%Q → (gen_random_kwh w < 1)%Q →
       gen_hour w < 6 ∨ 18 ≤ gen_hour w →
       EnergyReading.readingType (generateReading device w) = generation
       ∧ (EnergyReading.kwh (generateReading device w) == 0)%Q).
Proof.
  intros Hclaim.
  destruct (Hclaim solar_device (mkGenInput 18 0 0 "reading-1" 64800000))
    as [_ Hzero]; [done| | |simpl; lia|].
  - vm_compute. discriminate.
  - vm_compute. reflexivity.
  - vm_compute in Hzero. discriminate.
Qed.

(** C3, amended.  For a solar device and a draw in [0,1) the synthesized
    reading is a generation; from local hour 6 to local hour 18, both
    included, its magnitude lies between -7 and -2 kWh, and at every other
    hour it is 0. *)
Theorem generateReading_solar device w :
  Device.type device = solar →
  (0 <= gen_random_kwh w)%Q → (gen_random_kwh w < 1)%Q →
  EnergyReading.readingType (generateReading device w) = generation
  ∧ (6 ≤ gen_hour w ≤ 18 →
     (-7 <= EnergyReading.kwh (generateReading device w))%Q
     ∧ (EnergyReading.kwh (generateReading device w) <= -2)%Q)
  ∧ (gen_hour w < 6 ∨ 18 < gen_hour w →
     (EnergyReading.kwh (generateReading device w) == 0)%Q).
Proof.
  intros Hsolar Hu0 Hu1. split_and!.
  - destruct (decide (6 ≤ gen_hour w ≤ 18)) as [Hday|Hnight].
    + by apply generateReading_solar_daytime.
    + apply generateReading_solar_night; [done|lia].
  - intros Hday. by apply generateReading_solar_daytime.
  - intros Hnight. by apply generateReading_solar_night.
Qed.

Lemma generateReading_solar_witness :
  let reading :=
    generateReading solar_device
      (mkGenInput 18 (1 # 2) (1 # 2) "reading-1" 64800000) in
  EnergyReading.readingType reading = generation
  ∧ (6 ≤ 18 ≤ 18 →
     (-7 <= EnergyReading.kwh reading)%Q ∧ (EnergyReading.kwh reading <= -2)%Q)
  ∧ (18 < 6 ∨ 18 < 18 → (EnergyReading.kwh reading == 0)%Q).
Proof.
  apply (generateReading_solar solar_device
           (mkGenInput 18 (1 # 2) (1 # 2) "reading-1" 64800000)).
  - reflexivity.
  - vm_compute. discriminate.
  - vm_compute. reflexivity.
Defined.

(** C9, as stated, fails: the draw [1 - 2^-20] gives 14.99999046..., which
    rounds to 15.00. *)
Lemma consumption_magnitude_reaches_15 :
  ¬ (∀ device w,
       Device.type device ≠ solar →
       (0 <= gen_random_kwh w)%Q → (gen_random_kwh w < 1)%Q →
       EnergyReading.readingType (generateReading device w) = consumption
       ∧ (5 <= EnergyReading.kwh (generateReading device w))%Q
       ∧ (EnergyReading.kwh (generateReading device w) < 15)%Q).
Proof.
  intros Hclaim.
  destruct (Hclaim grid_device
              (mkGenInput 12 (1048575 # 1048576) 0 "reading-1" 43200000))
    as (_ & _ & Hlt); [done| | |].
  - vm_compute. discriminate.
  - vm_compute. reflexivity.
  - vm_compute in Hlt. discriminate.
Qed.

(** C9, amended.  For a device that is not solar and a draw in [0,1) the
    synthesized reading is a consumption whose magnitude, rounded to two
    decimals, lies in the closed interval [5,15]. *)
Theorem generateReading_consumption_range device w :
  Device.type device ≠ solar →
  (0 <= gen_random_kwh w)%Q → (gen_random_kwh w < 1)%Q →
  EnergyReading.readingType (generateReading device w) = consumption
  ∧ (5 <= EnergyReading.kwh (generateReading device w))%Q
  ∧ (EnergyReading.kwh (generateReading device w) <= 15)%Q.
Proof.
  intros Hother Hu0 Hu1. unfold generateReading.
  destruct (decide _) as [|_]; [done|]. simpl.
  split; [done|].
  pose proof (Math_round_ge 500 ((gen_random_kwh w * 10 + 5) * 100)%Q) as Hlo.
  pose proof (Math_round_le 1500 ((gen_random_kwh w * 10 + 5) * 100)%Q) as Hhi.
  change (inject_Z 500) with 500%Q in Hlo.
  change (inject_Z 1500) with 1500%Q in Hhi.
  hundredths. split; lra.
Qed.

Lemma generateReading_consumption_range_witness :
  let reading :=
    generateReading grid_device
      (mkGenInput 12 (1 # 2) (1 # 2) "reading-1" 43200000) in
  EnergyReading.readingType reading = consumption
  ∧ (5 <= EnergyReading.kwh reading)%Q
  ∧ (EnergyReading.kwh reading <= 15)%Q.
Proof.
  apply generateReading_consumption_range.
  - discriminate.
  - vm_compute. discriminate.
  - vm_compute. reflexivity.
Defined.

(** ** The subscription registries *)

Lemma registry_add_lookup key socketId (m : gmap string (gset string)) :
  registry_add key socketId m !! key = Some (members_of m key ∪ {[socketId]}).
Proof.
  unfold registry_add, members_of.
  destruct (decide (is_Some (m !! key))) as [[members Hm]|Hnone].
  - rewrite Hm. simpl. by rewrite lookup_insert_eq.
  - apply eq_None_not_Some in Hnone. rewrite Hnone. simpl.
    rewrite lookup_insert_eq. by rewrite lookup_insert_eq.
Qed.

Lemma registry_add_lookup_ne key key' socketId (m : gmap string (gset string)) :
  key ≠ key' → registry_add key socketId m !! key' = m !! key'.
Proof.
  intros Hne. unfold registry_add.
  destruct (decide (is_Some (m !! key))) as [[members Hm]|Hnone].
  - rewrite Hm. by rewrite lookup_insert_ne.
  - rewrite lookup_insert_eq. by rewrite !lookup_insert_ne.
Qed.

Lemma registry_add_dom key socketId (m : gmap string (gset string)) :
  dom (registry_add key socketId m) = {[key]} ∪ dom m.
Proof.
  apply set_eq. intros k. rewrite elem_of_union, elem_of_singleton, !elem_of_dom.
  destruct (decide (key = k)) as [<-|Hne].
  - rewrite registry_add_lookup. split; [by left|by eauto].
  - rewrite registry_add_lookup_ne by done. naive_solver.
Qed.

Lemma registry_delete_dom key socketId (m : gmap string (gset string)) :
  dom (registry_delete key socketId m) = dom m.
Proof.
  unfold registry_delete. destruct (m !! key) as [members|] eqn:Hm; [|done].
  rewrite dom_insert_L. apply elem_of_dom_2 in Hm. set_solver.
Qed.

Lemma registry_delete_all_dom socketId (m : gmap string (gset string)) :
  dom (registry_delete_all socketId m) = dom m.
Proof. unfold registry_delete_all. apply dom_fmap_L. Qed.

Lemma registry_delete_all_members socketId (m : gmap string (gset string)) key :
  members_of (registry_delete_all socketId m) key
  = members_of m key ∖ {[socketId]}.
Proof.
  unfold members_of, registry_delete_all. rewrite lookup_fmap.
  destruct (m !! key); simpl; [done|set_solver].
Qed.

Lemma registry_delete_all_idemp socketId (m : gmap string (gset string)) :
  registry_delete_all socketId (registry_delete_all socketId m)
  = registry_delete_all socketId m.
Proof.
  unfold registry_delete_all. apply map_eq. intros key.
  rewrite !lookup_fmap. destruct (m !! key) as [members|]; simpl; [|done].
  f_equal. set_solver.
Qed.

Lemma registry_delete_members key socketId (m : gmap string (gset string)) k :
  members_of (registry_delete key socketId m) k
  = if decide (k = key) then members_of m k ∖ {[socketId]} else members_of m k.
Proof.
  unfold registry_delete, members_of.
  destruct (decide (k = key)) as [->|Hne].
  - destruct (m !! key) as [members|] eqn:Hm.
    + by rewrite lookup_insert_eq.
    + rewrite Hm. simpl. set_solver.
  - destruct (m !! key) as [members|]; [|done].
    by rewrite lookup_insert_ne.
Qed.

Lemma registry_add_members key socketId (m : gmap string (gset string)) k :
  members_of (registry_add key socketId m) k
  = if decide (k = key) then members_of m k ∪ {[socketId]} else members_of m k.
Proof.
  destruct (decide (k = key)) as [->|Hne].
  - unfold members_of at 1. by rewrite registry_add_lookup.
  - unfold members_of. by rewrite registry_add_lookup_ne.
Qed.

Lemma emitted_none reading socketId (sockets : list string) :
  socketId ∉ sockets →
  filter (λ e, emit_to e = socketId) (reading_update reading <$> sockets) = [].
Proof.
  induction sockets as [|s sockets IH]; intros Hout; [done|].
  apply not_elem_of_cons in Hout as [Hne Hout].
  rewrite fmap_cons, filter_cons. simpl.
  destruct (decide (s = socketId)); [by subst|by apply IH].
Qed.

(** In a duplicate-free list of socket identifiers one identifier receives
    one event. *)
Lemma emitted_once reading socketId (sockets : list string) :
  NoDup sockets → socketId ∈ sockets →
  length (filter (λ e, emit_to e = socketId) (reading_update reading <$> sockets))
  = 1%nat.
Proof.
  induction 1 as [|s sockets Hs Hnd IH]; intros Hin; [by apply elem_of_nil in Hin|].
  rewrite fmap_cons, filter_cons. simpl.
  destruct (decide (s = socketId)) as [->|Hne].
  - simpl. by rewrite emitted_none.
  - apply IH. apply elem_of_cons in Hin as [?|?]; [by subst|done].
Qed.

(** What [POST /api/readings] emits when it creates a reading is the emit
    loop run on the reading it created; the registries are left as they
    were. *)
Lemma post_reading_emits fresh_id now body st reading emitted st' :
  post_reading fresh_id now body st = (Created reading, emitted, st') →
  emitted = emit_to_subscribers st reading
  ∧ body_deviceId body = Some (EnergyReading.deviceId reading)
  ∧ deviceSubscriptions st' = deviceSubscriptions st.
Proof.
  unfold post_reading.
  destruct (body_deviceId body) as [deviceId|]; [|done].
  destruct (validateDeviceId deviceId); simpl; [|done].
  destruct (body_kwh body) as [kwh|]; [|done].
  destruct (_ && _); [done|].
  destruct (list_find _ (devices st)); [|done].
  intros [= <- <- <-]. done.
Qed.

(** After two subscriptions in a row the publication made by a tick of the
    generator reaches the socket once. *)
Lemma subscribe_twice_simulated_once socketId st reading :
  let deviceId := EnergyReading.deviceId reading in
  let st1 := (on_socket socketId (subscribe deviceId) st).2 in
  let st2 := (on_socket socketId (subscribe deviceId) st1).2 in
  length (filter (λ e, emit_to e = socketId) (emit_simulated st2 reading))
  = 1%nat.
Proof.
  simpl. unfold emit_simulated. simpl.
  rewrite registry_add_lookup.
  set (members := (members_of _ _) ∪ {[socketId]}).
  assert (socketId ∈ members) as Hin by (unfold members; set_solver).
  destruct (Nat.ltb_spec 0 (size members)) as [_|Hsize].
  - apply emitted_once; [apply NoDup_elements|by apply elem_of_elements].
  - assert (size members = 0%nat) as Hzero by lia.
    apply size_empty_iff in Hzero. set_solver.
Qed.

(** C5.  The [disconnect] handler leaves the socket in the member set of no
    topic of the device, alert and room registries and out of the status
    set; running it again changes nothing. *)
Theorem disconnect_removes_everywhere socketId st :
  let st' := (on_socket socketId disconnect st).2 in
  (∀ deviceId, socketId ∉ members_of (deviceSubscriptions st') deviceId)
  ∧ (socketId ∉ statusSubscriptions st')
  ∧ (∀ deviceId, socketId ∉ members_of (alertSubscriptions st') deviceId)
  ∧ (∀ room, socketId ∉ members_of (roomSubscriptions st') room)
  ∧ (on_socket socketId disconnect st').2 = st'.
Proof.
  simpl. split_and!.
  - intros key. rewrite registry_delete_all_members. set_solver.
  - set_solver.
  - intros key. rewrite registry_delete_all_members. set_solver.
  - intros key. rewrite registry_delete_all_members. set_solver.
  - unfold on_disconnect. simpl. rewrite !registry_delete_all_idemp.
    f_equal. set_solver.
Qed.

Lemma keys_kept_refl st : keys_kept st st.
Proof. by unfold keys_kept. Qed.

Lemma keys_kept_trans st1 st2 st3 :
  keys_kept st1 st2 → keys_kept st2 st3 → keys_kept st1 st3.
Proof. unfold keys_kept. set_solver. Qed.

Lemma forEach_device_registries synth inputs ds i st :
  let st' := (forEach_device synth inputs i ds st).2 in
  deviceSubscriptions st' = deviceSubscriptions st
  ∧ statusSubscriptions st' = statusSubscriptions st
  ∧ alertSubscriptions st' = alertSubscriptions st
  ∧ roomSubscriptions st' = roomSubscriptions st
  ∧ devices st' = devices st.
Proof.
  revert i st. induction ds as [|device ds IH]; intros i st; simpl; [done|].
  destruct (synth device (inputs i)) as [reading|err]; simpl; [|done].
  specialize (IH (S i) (set_readings (cleanupOldReadings (Device.id device)
    (readings st ++ [reading])) st)).
  destruct (forEach_device synth inputs (S i) ds _) as [[c es] st2].
  simpl in *. exact IH.
Qed.

Lemma record_step_registries st op :
  deviceSubscriptions (record_step st op) = deviceSubscriptions st
  ∧ statusSubscriptions (record_step st op) = statusSubscriptions st
  ∧ alertSubscriptions (record_step st op) = alertSubscriptions st
  ∧ roomSubscriptions (record_step st op) = roomSubscriptions st.
Proof.
  destruct op as [fresh_id now body|batchReadings|socketId reading|inputs]; simpl.
  - unfold post_reading.
    destruct (body_deviceId body) as [deviceId|]; simpl; [|done].
    destruct (validateDeviceId deviceId); simpl; [|done].
    destruct (body_kwh body) as [kwh|]; simpl; [|done].
    destruct (_ && _); simpl; [done|].
    by destruct (list_find _ (devices st)).
  - done.
  - done.
  - unfold simulateRealTimeReadings, simulateRealTimeReadings_with.
    pose proof (forEach_device_registries
      (λ d w, Normal (generateReading d w)) inputs (devices st) 0 st) as H.
    simpl in H. tauto.
Qed.

Lemma server_step_keys_kept st act : keys_kept st (server_step st act).
Proof.
  destruct act as [socketId ev|op]; simpl.
  - unfold keys_kept.
    destruct ev; simpl;
      rewrite ?registry_add_dom, ?registry_delete_dom,
        ?registry_delete_all_dom; set_solver.
  - destruct (record_step_registries st op) as (Hd & _ & Ha & Hr).
    unfold keys_kept. by rewrite Hd, Ha, Hr.
Qed.

(** C10.  Whatever the server does next (subscriptions, unsubscriptions,
    room joins and leaves, disconnections, recorded readings, ticks), every
    topic key present in the device, alert or room registry is still
    present afterwards: handlers delete members, never keys. *)
Theorem topic_keys_never_removed acts st :
  keys_kept st (server_run acts st).
Proof.
  revert st. induction acts as [|act acts IH]; intros st; simpl.
  - apply keys_kept_refl.
  - eapply keys_kept_trans; [apply server_step_keys_kept|apply IH].
Qed.

(** A key whose last member has left stays, with an empty member set. *)
Example emptied_topic_persists :
  let st :=
    server_run
      [ FromSocket "socket-1" (subscribe "EAGLE-200-12345");
        FromSocket "socket-1" (join_room "building-a");
        FromSocket "socket-1" (unsubscribe "EAGLE-200-12345");
        FromSocket "socket-1" disconnect ]
      initial_state in
  deviceSubscriptions st !! "EAGLE-200-12345" = Some ∅
  ∧ roomSubscriptions st !! "building-a" = Some ∅.
Proof. split; compute_done. Qed.

(** ** Delivery to a subscribed socket *)

(** The events of the emit loop addressed to one socket: the reading, once,
    when the socket is a member of the topic of the reading's device, and
    nothing otherwise. *)
Lemma emitted_exactly reading socketId (sockets : list string) :
  NoDup sockets →
  filter (λ e, emit_to e = socketId) (reading_update reading <$> sockets)
  = if decide (socketId ∈ sockets)
    then [mkEmit socketId (EnergyReading.deviceId reading)
            (EnergyReading.kwh reading) (EnergyReading.timestamp reading)
            (EnergyReading.voltage reading)]
    else [].
Proof.
  induction 1 as [|s sockets Hs Hnd IH]; [done|].
  rewrite fmap_cons, filter_cons. simpl.
  destruct (decide (s = socketId)) as [->|Hne].
  - rewrite emitted_none by done.
    rewrite decide_True by (apply elem_of_cons; by left). done.
  - rewrite IH. destruct (decide (socketId ∈ sockets)) as [Hin|Hout].
    + rewrite decide_True by (apply elem_of_cons; by right). done.
    + rewrite decide_False; [done|]. rewrite elem_of_cons. naive_solver.
Qed.

Lemma emit_to_subscribers_exactly st reading socketId :
  filter (λ e, emit_to e = socketId) (emit_to_subscribers st reading)
  = if decide (socketId ∈ members_of (deviceSubscriptions st)
                            (EnergyReading.deviceId reading))
    then [mkEmit socketId (EnergyReading.deviceId reading)
            (EnergyReading.kwh reading) (EnergyReading.timestamp reading)
            (EnergyReading.voltage reading)]
    else [].
Proof.
  unfold emit_to_subscribers, members_of.
  destruct (deviceSubscriptions st !! EnergyReading.deviceId reading)
    as [members|]; simpl.
  - rewrite emitted_exactly by apply NoDup_elements.
    destruct (decide (socketId ∈ elements members)) as [Hin|Hout].
    + rewrite decide_True; [done|]. by apply elem_of_elements.
    + rewrite decide_False; [done|]. by rewrite <- elem_of_elements.
  - rewrite decide_False; [done|]. apply not_elem_of_empty.
Qed.

Lemma server_step_keeps_member socketId deviceId act st :
  keeps_subscription socketId deviceId act →
  socketId ∈ members_of (deviceSubscriptions st) deviceId →
  socketId ∈ members_of (deviceSubscriptions (server_step st act)) deviceId.
Proof.
  intros Hkeeps Hin. destruct act as [s ev|op]; simpl.
  - destruct ev; simpl in *; try done.
    + rewrite registry_add_members. destruct (decide _); set_solver.
    + rewrite registry_delete_members.
      destruct (decide _) as [->|]; [|done].
      apply elem_of_difference. split; [done|].
      rewrite elem_of_singleton. naive_solver.
    + rewrite registry_delete_all_members. set_solver.
  - by destruct (record_step_registries st op) as (-> & _).
Qed.

Lemma server_run_keeps_member socketId deviceId acts st :
  Forall (keeps_subscription socketId deviceId) acts →
  socketId ∈ members_of (deviceSubscriptions st) deviceId →
  socketId ∈ members_of (deviceSubscriptions (server_run acts st)) deviceId.
Proof.
  intros Hkeeps. revert st.
  induction Hkeeps as [|act acts Hact _ IH]; intros st Hin; simpl; [done|].
  apply IH. by apply server_step_keeps_member.
Qed.

Lemma subscribe_makes_member socketId deviceId st :
  socketId ∈ members_of
    (deviceSubscriptions (server_step st (FromSocket socketId (subscribe deviceId))))
    deviceId.
Proof.
  simpl. rewrite registry_add_members, decide_True by done. set_solver.
Qed.

(** C4.  A connection subscribes to a device's reading topic, and later
    subscribes to it again, without unsubscribing from it or disconnecting
    in between or afterwards, whatever else the server does meanwhile.
    The emit loop that then publishes a reading of that device sends that
    connection exactly one event, and this event carries the device, the
    magnitude, the timestamp and the voltage of the published reading. *)
Theorem subscribe_twice_delivers_once socketId deviceId between after st reading :
  Forall (keeps_subscription socketId deviceId) between →
  Forall (keeps_subscription socketId deviceId) after →
  EnergyReading.deviceId reading = deviceId →
  let st1 := server_step st (FromSocket socketId (subscribe deviceId)) in
  let st2 :=
    server_step (server_run between st1)
      (FromSocket socketId (subscribe deviceId)) in
  let st3 := server_run after st2 in
  filter (λ e, emit_to e = socketId) (emit_to_subscribers st3 reading)
  = [mkEmit socketId deviceId (EnergyReading.kwh reading)
       (EnergyReading.timestamp reading) (EnergyReading.voltage reading)].
Proof.
  intros Hbetween Hafter <-. cbv zeta.
  rewrite emit_to_subscribers_exactly, decide_True; [done|].
  apply server_run_keeps_member; [done|]. apply subscribe_makes_member.
Qed.

Lemma subscribe_twice_delivers_once_witness :
  let reading :=
    EnergyReading.mk "reading-1" "EAGLE-200-12345" 1000 7.5%Q 240%Q
      consumption in
  let between :=
    [ FromSocket "socket-2" (subscribe "EAGLE-200-12345");
      FromSocket "socket-1" (unsubscribe "EAGLE-200-67890");
      Recording (OpTick (sample_inputs 2000)) ] in
  let after :=
    [ FromSocket "socket-2" disconnect;
      FromSocket "socket-1" (join_room "building-a") ] in
  let st1 :=
    server_step initial_state
      (FromSocket "socket-1" (subscribe "EAGLE-200-12345")) in
  let st2 :=
    server_step (server_run between st1)
      (FromSocket "socket-1" (subscribe "EAGLE-200-12345")) in
  let st3 := server_run after st2 in
  filter (λ e, emit_to e = "socket-1") (emit_to_subscribers st3 reading)
  = [mkEmit "socket-1" "EAGLE-200-12345" (EnergyReading.kwh reading)
       (EnergyReading.timestamp reading) (EnergyReading.voltage reading)].
Proof.
  apply (subscribe_twice_delivers_once "socket-1" "EAGLE-200-12345").
  - repeat constructor; simpl; intros [? ?]; discriminate.
  - repeat constructor; simpl; discriminate.
  - reflexivity.
Defined.

(** ** The tick always completes *)

(** With [generateReading] as the rule nothing throws: the tick completes
    and pushes one reading per device of the catalog. *)
Lemma simulateRealTimeReadings_completes inputs st :
  (simulateRealTimeReadings inputs st).1.1 = Normal ().
Proof.
  unfold simulateRealTimeReadings, simulateRealTimeReadings_with.
  generalize 0%nat. generalize (devices st).
  intros ds i. revert st i. induction ds as [|device ds IH]; intros st i; simpl.
  - done.
  - specialize (IH (set_readings (cleanupOldReadings (Device.id device)
      (readings st ++ [generateReading device (inputs i)])) st) (S i)).
    destruct (forEach_device _ inputs (S i) ds _) as [[c es] st2]. exact IH.
Qed.

(** * Further properties *)

(** ** Eviction *)

Lemma remove_by_id_other_device rs y deviceId :
  (∀ r, r ∈ rs → EnergyReading.id r = EnergyReading.id y →
        EnergyReading.deviceId r ≠ deviceId) →
  getDeviceReadings deviceId (remove_by_id rs y) = getDeviceReadings deviceId rs.
Proof.
  intros Hother. unfold remove_by_id.
  destruct (list_find _ rs) as [[index r]|] eqn:Hfind; [|done].
  apply list_find_Some in Hfind as (Hi & Hid & _).
  assert (EnergyReading.deviceId r ≠ deviceId) as Hne.
  { apply Hother; [|done]. eapply list_elem_of_lookup_2; eauto. }
  rewrite delete_take_drop.
  rewrite <- (take_drop_middle rs index r Hi) at 3.
  unfold getDeviceReadings. rewrite !filter_app.
  by rewrite filter_cons_False.
Qed.

Lemma foldl_remove_by_id_other_device oldest rs deviceId :
  (∀ o r, o ∈ oldest → r ∈ rs → EnergyReading.id r = EnergyReading.id o →
          EnergyReading.deviceId r ≠ deviceId) →
  getDeviceReadings deviceId (foldl remove_by_id rs oldest)
  = getDeviceReadings deviceId rs.
Proof.
  revert rs. induction oldest as [|o oldest IH]; intros rs Hother; simpl; [done|].
  rewrite IH.
  - apply remove_by_id_other_device. intros r Hr. apply Hother; [|done].
    apply elem_of_cons. by left.
  - intros o' r Ho' Hr. apply Hother.
    + apply elem_of_cons. by right.
    + by eapply remove_by_id_elem_of.
Qed.

(** X1.  With distinct identifiers, the eviction run for one device leaves
    the history of every other device exactly as it was. *)
Theorem eviction_spares_other_devices deviceId other rs :
  NoDup (EnergyReading.id <$> rs) →
  other ≠ deviceId →
  getDeviceReadings other (cleanupOldReadings deviceId rs)
  = getDeviceReadings other rs.
Proof.
  intros Hnd Hne. unfold cleanupOldReadings.
  destruct (_ <? _)%nat; [|done].
  apply foldl_remove_by_id_other_device. intros o r Ho Hr Hid.
  assert (o ∈ getDeviceReadings deviceId rs) as Hodev.
  { rewrite <- (array_sort_Permutation compareTimestamp).
    eapply elem_of_sublist; [exact Ho|apply sublist_take]. }
  unfold getDeviceReadings in Hodev.
  apply list_elem_of_filter in Hodev as [Hdev Hors].
  rewrite (NoDup_ids_inj rs r o Hnd Hr Hors Hid). congruence.
Qed.

Lemma eviction_spares_other_devices_witness :
  getDeviceReadings "EAGLE-200-67890"
    (cleanupOldReadings "EAGLE-200-12345"
       (sample_store 101 ++
        [EnergyReading.mk "reading-solar" "EAGLE-200-67890" 0 (-3)%Q 240%Q
           generation]))
  = getDeviceReadings "EAGLE-200-67890"
      (sample_store 101 ++
       [EnergyReading.mk "reading-solar" "EAGLE-200-67890" 0 (-3)%Q 240%Q
          generation]).
Proof.
  apply eviction_spares_other_devices.
  - compute_done.
  - discriminate.
Defined.

(** X2.  With distinct identifiers, the eviction run for a device that holds
    more than [MAX_READINGS_PER_DEVICE] readings leaves it exactly
    [MAX_READINGS_PER_DEVICE], however many it held. *)
Theorem eviction_restores_cap deviceId rs :
  NoDup (EnergyReading.id <$> rs) →
  (MAX_READINGS_PER_DEVICE < length (getDeviceReadings deviceId rs))%nat →
  length (getDeviceReadings deviceId (cleanupOldReadings deviceId rs))
  = MAX_READINGS_PER_DEVICE.
Proof.
  intros Hnd Hover. rewrite cleanupOldReadings_length by done. lia.
Qed.

Lemma eviction_restores_cap_witness :
  length (getDeviceReadings "EAGLE-200-12345"
            (cleanupOldReadings "EAGLE-200-12345" (sample_store 130)))
  = MAX_READINGS_PER_DEVICE.
Proof.
  apply eviction_restores_cap.
  - compute_done.
  - vm_compute. lia.
Defined.

(** ** The cap along the evicting operations *)

Lemma generateReading_deviceId device w :
  EnergyReading.deviceId (generateReading device w) = Device.id device.
Proof.
  unfold generateReading.
  destruct (decide _); [destruct (_ && _)|]; reflexivity.
Qed.

Lemma NoDup_ids_after_step (before after pushed_now later : list EnergyReading.t) :
  after `sublist_of` before ++ pushed_now →
  NoDup (EnergyReading.id <$> before ++ pushed_now ++ later) →
  NoDup (EnergyReading.id <$> after ++ later).
Proof.
  intros Hsub. apply NoDup_ids_sublist.
  rewrite app_assoc. by apply sublist_app.
Qed.

Lemma forEach_device_within_cap inputs ds i st :
  NoDup (EnergyReading.id <$> readings st ++ tick_readings inputs i ds) →
  within_cap (readings st) →
  within_cap
    (readings
       (forEach_device (λ d w, Normal (generateReading d w)) inputs i ds st).2).
Proof.
  revert i st. induction ds as [|device ds IH]; intros i st Hnd Hcap; simpl.
  - done.
  - set (reading := generateReading device (inputs i)) in *.
    set (st1 := set_readings _ st).
    specialize (IH (S i) st1).
    destruct (forEach_device _ inputs (S i) ds st1) as [[c es] st2].
    simpl in *. apply IH.
    + eapply (NoDup_ids_after_step (readings st) _ [reading]); [|exact Hnd].
      apply cleanupOldReadings_sublist.
    + rewrite <- (generateReading_deviceId device (inputs i)).
      apply push_then_cleanup_within_cap; [|done].
      eapply NoDup_ids_sublist; [|exact Hnd].
      apply sublist_app; [done|]. apply sublist_skip, sublist_nil_l.
Qed.

Lemma record_step_within_cap st op :
  evicting op = true →
  NoDup (EnergyReading.id <$> readings st ++ pushed st op) →
  within_cap (readings st) →
  within_cap (readings (record_step st op)).
Proof.
  destruct op as [fresh_id now body|batchReadings|socketId reading|inputs];
    simpl; intros Hev Hnd Hcap; [|done| |].
  - unfold post_reading in *.
    destruct (body_deviceId body) as [deviceId|]; simpl; [|done].
    destruct (validateDeviceId deviceId); simpl in *; [|done].
    destruct (body_kwh body) as [kwh|]; simpl in *; [|done].
    destruct (_ && _); simpl in *; [done|].
    destruct (list_find _ (devices st)); simpl in *; [|done].
    by apply (push_then_cleanup_within_cap (readings st)
                (EnergyReading.mk fresh_id deviceId now _ _ _)).
  - by apply push_then_cleanup_within_cap.
  - by apply forEach_device_within_cap.
Qed.

(** X3.  Along any sequence of single creates, client-pushed readings and
    generator ticks (no batch) whose readings carry distinct identifiers, a
    store in which every device holds at most [MAX_READINGS_PER_DEVICE]
    readings stays so. *)
Theorem record_run_within_cap ops st :
  Forall (λ op, evicting op = true) ops →
  NoDup (EnergyReading.id <$> readings st ++ all_pushed ops st) →
  within_cap (readings st) →
  within_cap (readings (record_run ops st)).
Proof.
  revert st. induction ops as [|op ops IH]; intros st Hev Hnd Hcap; simpl.
  - done.
  - apply Forall_cons in Hev as [Hop Hev]. simpl in Hnd.
    apply IH; [done| |].
    + eapply NoDup_ids_after_step; [|exact Hnd]. apply record_step_sublist.
    + apply record_step_within_cap; [done| |done].
      eapply NoDup_ids_sublist; [|exact Hnd].
      rewrite app_assoc. apply sublist_inserts_r. done.
Qed.

Lemma record_run_within_cap_witness :
  within_cap (readings (record_run sample_ops initial_state)).
Proof.
  apply record_run_within_cap.
  - repeat constructor.
  - compute_done.
  - intros deviceId. simpl. unfold MAX_READINGS_PER_DEVICE. lia.
Defined.

(** ** Single create *)

Lemma getDeviceReadings_snoc rs reading :
  getDeviceReadings (EnergyReading.deviceId reading) (rs ++ [reading])
  = getDeviceReadings (EnergyReading.deviceId reading) rs ++ [reading].
Proof.
  unfold getDeviceReadings. rewrite filter_app. f_equal.
  by rewrite filter_cons_True.
Qed.

Lemma post_reading_created fresh_id now body st reading :
  (post_reading fresh_id now body st).1.1 = Created reading →
  readings (post_reading fresh_id now body st).2
  = cleanupOldReadings (EnergyReading.deviceId reading)
      (readings st ++ [reading])
  ∧ EnergyReading.id reading = fresh_id
  ∧ EnergyReading.timestamp reading = now
  ∧ body_deviceId body = Some (EnergyReading.deviceId reading).
Proof.
  unfold post_reading.
  destruct (body_deviceId body) as [deviceId|]; simpl; [|done].
  destruct (validateDeviceId deviceId); simpl; [|done].
  destruct (body_kwh body) as [kwh|]; simpl; [|done].
  destruct (_ && _); simpl; [done|].
  destruct (list_find _ (devices st)); simpl; [|done].
  by intros [= <-].
Qed.

(** X4.  A [POST /api/readings] that answers 201 leaves the device of the
    created reading with one more reading than before, up to the cap:
    [min (n + 1) 100] (identifiers being distinct). *)
Theorem post_reading_history_length fresh_id now body st reading :
  (post_reading fresh_id now body st).1.1 = Created reading →
  NoDup (EnergyReading.id <$> readings st ++ [reading]) →
  length (history (EnergyReading.deviceId reading)
            (post_reading fresh_id now body st).2)
  = (S (length (history (EnergyReading.deviceId reading) st))
       `min` MAX_READINGS_PER_DEVICE)%nat.
Proof.
  intros Hcreated Hnd.
  destruct (post_reading_created _ _ _ _ _ Hcreated) as (Hrs & _).
  unfold history. rewrite Hrs, cleanupOldReadings_length by done.
  rewrite getDeviceReadings_snoc, length_app.
  change (length [reading]) with 1%nat. by rewrite Nat.add_1_r.
Qed.

Lemma post_reading_history_length_witness :
  let body :=
    mkReadingBody (Some "EAGLE-200-12345") (Some 7.5%Q) None None in
  let reading :=
    EnergyReading.mk "reading-1000-a" "EAGLE-200-12345" 1000
      (Math_round (7.5 * 100) / 100)%Q 240%Q consumption in
  length (history (EnergyReading.deviceId reading)
            (post_reading "reading-1000-a" 1000 body initial_state).2)
  = (S (length (history (EnergyReading.deviceId reading) initial_state))
       `min` MAX_READINGS_PER_DEVICE)%nat.
Proof.
  apply post_reading_history_length.
  - reflexivity.
  - compute_done.
Defined.

(** X5.  A [POST /api/readings] that does not answer 201 changes nothing
    and emits nothing. *)
Theorem post_reading_rejected_is_inert fresh_id now body st :
  (∀ reading, (post_reading fresh_id now body st).1.1 ≠ Created reading) →
  (post_reading fresh_id now body st).2 = st
  ∧ (post_reading fresh_id now body st).1.2 = [].
Proof.
  unfold post_reading.
  destruct (body_deviceId body) as [deviceId|]; simpl; [|done].
  destruct (validateDeviceId deviceId); simpl; [|done].
  destruct (body_kwh body) as [kwh|]; simpl; [|done].
  destruct (_ && _); simpl; [done|].
  destruct (list_find _ (devices st)); simpl; [|done].
  intros Hnot. by destruct (Hnot _ eq_refl).
Qed.

Lemma post_reading_rejected_is_inert_witness :
  let body :=
    mkReadingBody (Some "EAGLE-200-12345") (Some (-3)%Q) None
      (Some consumption) in
  (post_reading "reading-1" 1000 body initial_state).2 = initial_state
  ∧ (post_reading "reading-1" 1000 body initial_state).1.2 = [].
Proof.
  apply post_reading_rejected_is_inert. intros reading. discriminate.
Defined.

(** X6.  The check against negative consumption fires only when the body
    names [readingType] "consumption": for a device of the catalog, a body
    without [readingType] and with [kwh] at most -0.01 is answered 201, and
    the stored reading is a consumption with a negative magnitude. *)
Theorem post_reading_negative_without_type fresh_id now deviceId kwh voltage st :
  validateDeviceId deviceId = true →
  is_Some (list_find (λ d, Device.id d = deviceId) (devices st)) →
  (kwh <= - (1 # 100))%Q →
  ∃ reading,
    (post_reading fresh_id now
       (mkReadingBody (Some deviceId) (Some kwh) voltage None) st).1.1
    = Created reading
    ∧ EnergyReading.readingType reading = consumption
    ∧ (EnergyReading.kwh reading < 0)%Q.
Proof.
  intros Hvalid [found Hfound] Hneg. unfold post_reading. simpl.
  rewrite Hvalid, Hfound. simpl.
  eexists. split; [reflexivity|]. simpl. split; [done|].
  pose proof (Math_round_le (-1) (kwh * 100)%Q) as Hround.
  change (inject_Z (-1)) with (-1)%Q in Hround.
  hundredths. lra.
Qed.

Lemma post_reading_negative_without_type_witness :
  ∃ reading,
    (post_reading "reading-1" 1000
       (mkReadingBody (Some "EAGLE-200-12345") (Some (-3)%Q) None None)
       initial_state).1.1
    = Created reading
    ∧ EnergyReading.readingType reading = consumption
    ∧ (EnergyReading.kwh reading < 0)%Q.
Proof.
  apply post_reading_negative_without_type.
  - reflexivity.
  - vm_compute. eauto.
  - vm_compute. discriminate.
Defined.

(** ** The generator tick *)

Lemma cleanupOldReadings_under_cap deviceId rs :
  (length rs ≤ MAX_READINGS_PER_DEVICE)%nat →
  cleanupOldReadings deviceId rs = rs.
Proof.
  intros Hlen. unfold cleanupOldReadings.
  destruct (Nat.ltb_spec MAX_READINGS_PER_DEVICE
              (length (getDeviceReadings deviceId rs))) as [Hover|_]; [|done].
  unfold getDeviceReadings in Hover.
  pose proof (length_filter (λ r, EnergyReading.deviceId r = deviceId) rs). lia.
Qed.

Lemma forEach_device_appends inputs ds i st :
  (length (readings st) + length ds ≤ MAX_READINGS_PER_DEVICE)%nat →
  readings
    (forEach_device (λ d w, Normal (generateReading d w)) inputs i ds st).2
  = readings st ++ tick_readings inputs i ds.
Proof.
  revert i st. induction ds as [|device ds IH]; intros i st Hlen; simpl.
  - by rewrite app_nil_r.
  - simpl in Hlen.
    rewrite cleanupOldReadings_under_cap
      by (rewrite length_app; simpl; lia).
    specialize (IH (S i)
      (set_readings (readings st ++ [generateReading device (inputs i)]) st)).
    destruct (forEach_device _ inputs (S i) ds _) as [[c es] st2].
    simpl in *. rewrite IH by (rewrite length_app; simpl; lia).
    by rewrite <- app_assoc.
Qed.

(** X7.  While the store and the catalog together stay within the cap, a
    tick appends to the store exactly one synthesized reading per device of
    the catalog, in catalog order, whoever is subscribed. *)
Theorem tick_appends_one_reading_per_device inputs st :
  (length (readings st) + length (devices st) ≤ MAX_READINGS_PER_DEVICE)%nat →
  readings (simulateRealTimeReadings inputs st).2
  = readings st ++ tick_readings inputs 0 (devices st).
Proof.
  intros Hlen. by apply forEach_device_appends.
Qed.

Lemma tick_appends_one_reading_per_device_witness :
  readings (simulateRealTimeReadings (sample_inputs 2000) initial_state).2
  = readings initial_state
    ++ tick_readings (sample_inputs 2000) 0 (devices initial_state).
Proof.
  apply tick_appends_one_reading_per_device.
  simpl. unfold MAX_READINGS_PER_DEVICE. lia.
Defined.

Lemma emit_simulated_members st reading e :
  e ∈ emit_simulated st reading →
  emit_to e ∈ members_of (deviceSubscriptions st) (emit_deviceId e).
Proof.
  unfold emit_simulated, members_of.
  destruct (deviceSubscriptions st !! EnergyReading.deviceId reading)
    as [subscribers|] eqn:Hsubs; [|by intros ?%elem_of_nil].
  destruct (0 <? size subscribers)%nat; [|by intros ?%elem_of_nil].
  intros (socketId & -> & Hin)%list_elem_of_fmap. simpl.
  rewrite Hsubs. simpl. by apply elem_of_elements.
Qed.

Lemma forEach_device_emits_to_members synth inputs ds i st e :
  e ∈ (forEach_device synth inputs i ds st).1.2 →
  emit_to e ∈ members_of (deviceSubscriptions st) (emit_deviceId e).
Proof.
  revert i st. induction ds as [|device ds IH]; intros i st; simpl.
  - by intros ?%elem_of_nil.
  - destruct (synth device (inputs i)) as [reading|err];
      [|by intros ?%elem_of_nil].
    set (st1 := set_readings _ st).
    specialize (IH (S i) st1).
    destruct (forEach_device synth inputs (S i) ds st1) as [[c es] st2].
    simpl in *. intros [Hnow|Hlater]%elem_of_app.
    + by apply emit_simulated_members in Hnow.
    + by apply IH.
Qed.

(** X8.  Every event a tick emits goes to a socket that is subscribed to
    the device the event is about; with no subscriber the tick emits
    nothing. *)
Theorem tick_emits_only_to_subscribers inputs st e :
  e ∈ (simulateRealTimeReadings inputs st).1.2 →
  emit_to e ∈ members_of (deviceSubscriptions st) (emit_deviceId e).
Proof. apply forEach_device_emits_to_members. Qed.

Lemma tick_emits_only_to_subscribers_witness :
  let e :=
    reading_update (generateReading grid_device (sample_inputs 2000 0))
      "socket-1" in
  emit_to e ∈ members_of (deviceSubscriptions sample_subscribed)
                (emit_deviceId e).
Proof.
  apply (tick_emits_only_to_subscribers (sample_inputs 2000)). compute_done.
Defined.

(** ** Fan-out *)

(** X9.  A [POST /api/readings] that answers 201 sends to each socket
    subscribed to the device of the created reading exactly one event,
    which carries the device, the magnitude, the timestamp and the voltage
    of the created reading, and sends nothing to any other socket. *)
Theorem post_reading_fans_out fresh_id now body st reading socketId :
  (post_reading fresh_id now body st).1.1 = Created reading →
  filter (λ e, emit_to e = socketId) (post_reading fresh_id now body st).1.2
  = if decide (socketId ∈ members_of (deviceSubscriptions st)
                            (EnergyReading.deviceId reading))
    then [mkEmit socketId (EnergyReading.deviceId reading)
            (EnergyReading.kwh reading) (EnergyReading.timestamp reading)
            (EnergyReading.voltage reading)]
    else [].
Proof.
  intros Hcreated.
  destruct (post_reading fresh_id now body st) as [[response emitted] st']
    eqn:Hpost.
  simpl in *. subst response.
  destruct (post_reading_emits _ _ _ _ _ _ _ Hpost) as (-> & _ & _).
  apply emit_to_subscribers_exactly.
Qed.

Lemma post_reading_fans_out_witness :
  let body :=
    mkReadingBody (Some "EAGLE-200-12345") (Some 7.5%Q) None None in
  let reading :=
    EnergyReading.mk "reading-1000-a" "EAGLE-200-12345" 1000
      (Math_round (7.5 * 100) / 100)%Q 240%Q consumption in
  filter (λ e, emit_to e = "socket-2")
    (post_reading "reading-1000-a" 1000 body sample_subscribed).1.2
  = if decide ("socket-2" ∈ members_of (deviceSubscriptions sample_subscribed)
                             (EnergyReading.deviceId reading))
    then [mkEmit "socket-2" (EnergyReading.deviceId reading)
            (EnergyReading.kwh reading) (EnergyReading.timestamp reading)
            (EnergyReading.voltage reading)]
    else [].
Proof.
  apply post_reading_fans_out. reflexivity.
Defined.

(** X10.  [reading:new] never sends anything back to the socket the reading
    came from; every other socket receives exactly one event, carrying the
    device, the magnitude, the timestamp and the voltage of that reading,
    when it is subscribed to the reading's device, and nothing otherwise. *)
Theorem reading_new_skips_sender sender reading st socketId :
  filter (λ e, emit_to e = socketId)
    (on_socket sender (reading_new reading) st).1
  = if decide (socketId ≠ sender
               ∧ socketId ∈ members_of (deviceSubscriptions st)
                              (EnergyReading.deviceId reading))
    then [mkEmit socketId (EnergyReading.deviceId reading)
            (EnergyReading.kwh reading) (EnergyReading.timestamp reading)
            (EnergyReading.voltage reading)]
    else [].
Proof.
  simpl. unfold on_reading_new. simpl.
  rewrite list_filter_filter.
  destruct (decide (socketId = sender)) as [->|Hne].
  - rewrite decide_False by tauto.
    induction (emit_to_subscribers _ _) as [|e l IH]; [done|].
    rewrite filter_cons. destruct (decide _) as [[? ?]|_]; done.
  - rewrite (list_filter_iff _ (λ e, emit_to e = socketId)).
    + rewrite emit_to_subscribers_exactly. simpl.
      destruct (decide (socketId ∈ _)); [by rewrite decide_True|
                                         by rewrite decide_False by tauto].
    + intros e. split; [tauto|]. intros Heq. split; [done|congruence].
Qed.

(** ** Subscribing and unsubscribing *)

(** X11.  [subscribe] followed by [unsubscribe] of the same socket on the
    same device leaves that socket out of the device's members, whether or
    not it was subscribed before, and leaves every other membership, on
    this device and on the others, as it was. *)
Theorem subscribe_then_unsubscribe socketId deviceId st key :
  let st1 := (on_socket socketId (subscribe deviceId) st).2 in
  let st2 := (on_socket socketId (unsubscribe deviceId) st1).2 in
  members_of (deviceSubscriptions st2) key
  = if decide (key = deviceId)
    then members_of (deviceSubscriptions st) key ∖ {[socketId]}
    else members_of (deviceSubscriptions st) key.
Proof.
  simpl. rewrite registry_delete_members, registry_add_members.
  destruct (decide (key = deviceId)); [set_solver|done].
Qed.

(** X12.  [unsubscribe] by a socket that is not a member of the device's
    topic, the topic being known or not, leaves the whole state
    unchanged. *)
Theorem unsubscribe_non_member_is_noop socketId deviceId st :
  socketId ∉ members_of (deviceSubscriptions st) deviceId →
  (on_socket socketId (unsubscribe deviceId) st).2 = st.
Proof.
  intros Hout. destruct st as [ds rs dsub ssub asub rsub]. simpl in *.
  unfold set_deviceSubscriptions. simpl. f_equal.
  unfold registry_delete, members_of in *.
  destruct (dsub !! deviceId) as [members|] eqn:Hm; [|done].
  simpl in Hout. apply insert_id. rewrite Hm. f_equal. set_solver.
Qed.

Lemma unsubscribe_non_member_is_noop_witness :
  (on_socket "socket-9" (unsubscribe "EAGLE-200-12345") sample_subscribed).2
  = sample_subscribed.
Proof.
  apply unsubscribe_non_member_is_noop. compute_done.
Defined.

(** X13.  Subscribing again to a topic the socket already follows changes
    nothing: [subscribe] is idempotent on the whole state. *)
Theorem subscribe_is_idempotent socketId deviceId st :
  let st1 := (on_socket socketId (subscribe deviceId) st).2 in
  (on_socket socketId (subscribe deviceId) st1).2 = st1.
Proof.
  destruct st as [ds rs dsub ssub asub rsub]. simpl.
  unfold set_deviceSubscriptions. simpl. f_equal.
  apply map_eq. intros k. destruct (decide (deviceId = k)) as [<-|Hne].
  - rewrite !registry_add_lookup. f_equal.
    unfold members_of at 1. rewrite registry_add_lookup. simpl. set_solver.
  - by rewrite !registry_add_lookup_ne.
Qed.

(** X14.  The disconnection of one socket leaves the memberships of every
    other socket as they were, in the four registries. *)
Theorem disconnect_spares_other_sockets socketId other st key :
  other ≠ socketId →
  let st' := (on_socket socketId disconnect st).2 in
  (other ∈ members_of (deviceSubscriptions st') key
   ↔ other ∈ members_of (deviceSubscriptions st) key)
  ∧ (other ∈ statusSubscriptions st' ↔ other ∈ statusSubscriptions st)
  ∧ (other ∈ members_of (alertSubscriptions st') key
     ↔ other ∈ members_of (alertSubscriptions st) key)
  ∧ (other ∈ members_of (roomSubscriptions st') key
     ↔ other ∈ members_of (roomSubscriptions st) key).
Proof.
  intros Hne. simpl. rewrite !registry_delete_all_members. set_solver.
Qed.

Lemma disconnect_spares_other_sockets_witness :
  let st' := (on_socket "socket-1" disconnect sample_subscribed).2 in
  ("socket-2" ∈ members_of (deviceSubscriptions st') "EAGLE-200-12345"
   ↔ "socket-2" ∈ members_of (deviceSubscriptions sample_subscribed)
                    "EAGLE-200-12345")
  ∧ ("socket-2" ∈ statusSubscriptions st'
     ↔ "socket-2" ∈ statusSubscriptions sample_subscribed)
  ∧ ("socket-2" ∈ members_of (alertSubscriptions st') "EAGLE-200-12345"
     ↔ "socket-2" ∈ members_of (alertSubscriptions sample_subscribed)
                      "EAGLE-200-12345")
  ∧ ("socket-2" ∈ members_of (roomSubscriptions st') "EAGLE-200-12345"
     ↔ "socket-2" ∈ members_of (roomSubscriptions sample_subscribed)
                      "EAGLE-200-12345").
Proof.
  apply (disconnect_spares_other_sockets "socket-1" "socket-2"). discriminate.
Defined.

(** ** The aggregator on a non-empty history *)

Lemma fold_left_Qmin_spec (vs : list Q) (v : Q) :
  fold_left Qmin vs v ∈ v :: vs
  ∧ ∀ x, x ∈ v :: vs → (fold_left Qmin vs v <= x)%Q.
Proof.
  revert v. induction vs as [|w vs IH]; intros v; simpl.
  - split; [apply elem_of_cons; by left|].
    intros x ->%list_elem_of_singleton. apply Qle_refl.
  - destruct (IH (Qmin v w)) as [Hin Hle]. split.
    + apply elem_of_cons in Hin as [->|Hin].
      * unfold Qmin, GenericMinMax.gmin.
        destruct (v ?= w)%Q; set_solver.
      * set_solver.
    + intros x Hx.
      assert (fold_left Qmin vs (Qmin v w) <= Qmin v w)%Q as Hhead
        by (apply Hle, elem_of_cons; by left).
      apply elem_of_cons in Hx as [->|Hx].
      * eapply Qle_trans; [exact Hhead|apply Q.le_min_l].
      * apply elem_of_cons in Hx as [->|Hx].
        -- eapply Qle_trans; [exact Hhead|apply Q.le_min_r].
        -- apply Hle, elem_of_cons. by right.
Qed.

Lemma fold_left_Qmax_spec (vs : list Q) (v : Q) :
  fold_left Qmax vs v ∈ v :: vs
  ∧ ∀ x, x ∈ v :: vs → (x <= fold_left Qmax vs v)%Q.
Proof.
  revert v. induction vs as [|w vs IH]; intros v; simpl.
  - split; [apply elem_of_cons; by left|].
    intros x ->%list_elem_of_singleton. apply Qle_refl.
  - destruct (IH (Qmax v w)) as [Hin Hle]. split.
    + apply elem_of_cons in Hin as [->|Hin].
      * unfold Qmax, GenericMinMax.gmax.
        destruct (v ?= w)%Q; set_solver.
      * set_solver.
    + intros x Hx.
      assert (Qmax v w <= fold_left Qmax vs (Qmax v w))%Q as Hhead
        by (apply Hle, elem_of_cons; by left).
      apply elem_of_cons in Hx as [->|Hx].
      * eapply Qle_trans; [apply Q.le_max_l|exact Hhead].
      * apply elem_of_cons in Hx as [->|Hx].
        -- eapply Qle_trans; [apply Q.le_max_r|exact Hhead].
        -- apply Hle, elem_of_cons. by right.
Qed.

(** X15.  On a device with at least one reading, the [min] and [max] that
    [calculateAggregates] returns are the magnitudes of two readings of the
    device, and every reading of the device has its magnitude between
    them. *)
Theorem calculateAggregates_extremes deviceId rs :
  getDeviceReadings deviceId rs ≠ [] →
  let stats := calculateAggregates deviceId rs in
  (∃ r, r ∈ getDeviceReadings deviceId rs
        ∧ EnergyReading.kwh r = AggregateStats.min stats)
  ∧ (∃ r, r ∈ getDeviceReadings deviceId rs
          ∧ EnergyReading.kwh r = AggregateStats.max stats)
  ∧ ∀ r, r ∈ getDeviceReadings deviceId rs →
         (AggregateStats.min stats <= EnergyReading.kwh r)%Q
         ∧ (EnergyReading.kwh r <= AggregateStats.max stats)%Q.
Proof.
  intros Hne. unfold calculateAggregates.
  destruct (getDeviceReadings deviceId rs) as [|r0 l] eqn:Hh; [done|].
  simpl.
  destruct (fold_left_Qmin_spec (EnergyReading.kwh <$> l) (EnergyReading.kwh r0))
    as [Hmin_in Hmin_le].
  destruct (fold_left_Qmax_spec (EnergyReading.kwh <$> l) (EnergyReading.kwh r0))
    as [Hmax_in Hmax_le].
  rewrite <- fmap_cons in Hmin_in, Hmax_in.
  apply list_elem_of_fmap in Hmin_in as (rmin & Hmin_eq & Hmin_in).
  apply list_elem_of_fmap in Hmax_in as (rmax & Hmax_eq & Hmax_in).
  split_and!; [by exists rmin|by exists rmax|].
  intros r Hr. split.
  - apply Hmin_le. rewrite <- fmap_cons. by apply list_elem_of_fmap_2.
  - apply Hmax_le. rewrite <- fmap_cons. by apply list_elem_of_fmap_2.
Qed.

Lemma calculateAggregates_extremes_witness :
  let stats := calculateAggregates "EAGLE-200-12345" (sample_store 3) in
  (∃ r, r ∈ getDeviceReadings "EAGLE-200-12345" (sample_store 3)
        ∧ EnergyReading.kwh r = AggregateStats.min stats)
  ∧ (∃ r, r ∈ getDeviceReadings "EAGLE-200-12345" (sample_store 3)
          ∧ EnergyReading.kwh r = AggregateStats.max stats)
  ∧ ∀ r, r ∈ getDeviceReadings "EAGLE-200-12345" (sample_store 3) →
         (AggregateStats.min stats <= EnergyReading.kwh r)%Q
         ∧ (EnergyReading.kwh r <= AggregateStats.max stats)%Q.
Proof.
  apply calculateAggregates_extremes. vm_compute. discriminate.
Defined.

(** ** Device identifiers *)

(** X17.  [validateDeviceId] accepts exactly the strings made of
    [EAGLE-200-] followed by five decimal digits. *)
Theorem validateDeviceId_spec (deviceId : string) :
  validateDeviceId deviceId = true
  ↔ ∃ digits,
      deviceId = "EAGLE-200-" +:+ digits
      ∧ String.length digits = 5%nat
      ∧ all_digits digits = true.
Proof.
  unfold validateDeviceId. rewrite !andb_true_iff, Nat.eqb_eq. split.
  - intros [[Hprefix Hlen] Hdigits]. revert Hprefix Hlen Hdigits.
    intros Hprefix.
    do 10 (prefix_step Hprefix deviceId).
    intros Hlen Hdigits. exists deviceId. simpl in Hlen.
    split_and!; [done|lia|].
    do 5 (destruct deviceId as [|? deviceId]; [discriminate Hlen|]).
    destruct deviceId; [|discriminate Hlen]. exact Hdigits.
  - intros (digits & -> & Hlen & Hdigits).
    do 5 (destruct digits as [|? digits]; [discriminate Hlen|]).
    destruct digits; [|discriminate Hlen].
    split_and!; [reflexivity|reflexivity|exact Hdigits].
Qed.

(** ** The synthesized voltage *)

(** X18.  For every device and every voltage draw in [0,1), the voltage of
    the synthesized reading, rounded to one decimal, lies between 235 and
    245 volts, both reachable. *)
Theorem generateReading_voltage_range device w :
  (0 <= gen_random_voltage w)%Q → (gen_random_voltage w < 1)%Q →
  (235 <= EnergyReading.voltage (generateReading device w))%Q
  ∧ (EnergyReading.voltage (generateReading device w) <= 245)%Q.
Proof.
  intros Hu0 Hu1.
  assert (EnergyReading.voltage (generateReading device w)
          = (Math_round ((gen_random_voltage w * 10 + 235) * 10) / 10)%Q) as ->.
  { unfold generateReading.
    destruct (decide _); [destruct (_ && _)|]; reflexivity. }
  pose proof (Math_round_ge 2350 ((gen_random_voltage w * 10 + 235) * 10)%Q)
    as Hlo.
  pose proof (Math_round_le 2450 ((gen_random_voltage w * 10 + 235) * 10)%Q)
    as Hhi.
  change (inject_Z 2350) with 2350%Q in Hlo.
  change (inject_Z 2450) with 2450%Q in Hhi.
  tenths. split; lra.
Qed.

Lemma generateReading_voltage_range_witness :
  let reading :=
    generateReading solar_device
      (mkGenInput 3 (1 # 2) (9999 # 10000) "reading-1" 10800000) in
  (235 <= EnergyReading.voltage reading)%Q
  ∧ (EnergyReading.voltage reading <= 245)%Q.
Proof.
  apply generateReading_voltage_range.
  - vm_compute. discriminate.
  - vm_compute. reflexivity.
Defined.

(** ** Reading back what was created *)

Lemma post_reading_created_valid fresh_id now body st reading :
  (post_reading fresh_id now body st).1.1 = Created reading →
  validateDeviceId (EnergyReading.deviceId reading) = true.
Proof.
  unfold post_reading.
  destruct (body_deviceId body) as [deviceId|]; simpl; [|done].
  destruct (validateDeviceId deviceId) eqn:Hvalid; simpl; [|done].
  destruct (body_kwh body) as [kwh|]; simpl; [|done].
  destruct (_ && _); simpl; [done|].
  destruct (list_find _ (devices st)); simpl; [|done].
  by intros [= <-].
Qed.

(** X19.  After a [POST /api/readings] answered 201 for a device that held
    fewer than [MAX_READINGS_PER_DEVICE] readings,
    [GET /api/readings/:deviceId] answers 200 with the former history
    followed by the created reading. *)
Theorem post_then_get_readings fresh_id now body st reading :
  (post_reading fresh_id now body st).1.1 = Created reading →
  (length (history (EnergyReading.deviceId reading) st)
   < MAX_READINGS_PER_DEVICE)%nat →
  get_readings (EnergyReading.deviceId reading)
    (post_reading fresh_id now body st).2
  = Ok (history (EnergyReading.deviceId reading) st ++ [reading]).
Proof.
  intros Hcreated Hroom. unfold get_readings.
  rewrite (post_reading_created_valid _ _ _ _ _ Hcreated). simpl.
  destruct (post_reading_created _ _ _ _ _ Hcreated) as (-> & _).
  unfold history in *. unfold cleanupOldReadings.
  rewrite getDeviceReadings_snoc, length_app.
  change (length [reading]) with 1%nat.
  destruct (Nat.ltb_spec MAX_READINGS_PER_DEVICE
              (length (getDeviceReadings (EnergyReading.deviceId reading)
                         (readings st)) + 1)) as [Hover|_]; [lia|].
  rewrite getDeviceReadings_snoc, length_app.
  change (length [reading]) with 1%nat.
  by rewrite Nat.add_1_r.
Qed.

Lemma post_then_get_readings_witness :
  let body :=
    mkReadingBody (Some "EAGLE-200-12345") (Some 7.5%Q) None None in
  let reading :=
    EnergyReading.mk "reading-1000-a" "EAGLE-200-12345" 1000
      (Math_round (7.5 * 100) / 100)%Q 240%Q consumption in
  get_readings (EnergyReading.deviceId reading)
    (post_reading "reading-1000-a" 1000 body initial_state).2
  = Ok (history (EnergyReading.deviceId reading) initial_state ++ [reading]).
Proof.
  apply post_then_get_readings.
  - reflexivity.
  - vm_compute. lia.
Defined.

(** ** The device catalog *)

Lemma list_find_insert_same (ds : list Device.t) id index device updated :
  list_find (λ d, Device.id d = id) ds = Some (index, device) →
  Device.id updated = id →
  list_find (λ d, Device.id d = id) (<[index := updated]> ds)
  = Some (index, updated).
Proof.
  intros Hfind Hid. apply list_find_Some in Hfind as (Hi & _ & Hbefore).
  apply list_find_Some. split_and!.
  - apply list_lookup_insert_eq. by eapply lookup_lt_Some.
  - done.
  - intros j y Hj Hlt. rewrite list_lookup_insert_ne in Hj by lia.
    by eapply Hbefore.
Qed.

Lemma ids_after_insert (ds : list Device.t) index device updated :
  ds !! index = Some device →
  Device.id updated = Device.id device →
  Device.id <$> <[index := updated]> ds = Device.id <$> ds.
Proof.
  intros Hi Hid. rewrite list_fmap_insert, Hid.
  apply list_insert_id. by rewrite list_lookup_fmap, Hi.
Qed.

(** X20.  [PUT /api/devices/:id] never changes the identifiers of the
    catalog nor their order, whatever the body, and it leaves every device
    with another identifier exactly as it was. *)
Theorem put_device_keeps_identifiers id body st :
  let st' := (put_device id body st).2 in
  Device.id <$> devices st' = Device.id <$> devices st
  ∧ ∀ j d, devices st !! j = Some d → Device.id d ≠ id →
           devices st' !! j = Some d.
Proof.
  unfold put_device.
  destruct (list_find _ (devices st)) as [[index device]|] eqn:Hfind; simpl.
  - apply list_find_Some in Hfind as (Hi & Hid & _). split.
    + by apply (ids_after_insert _ _ device).
    + intros j d Hj Hne. rewrite list_lookup_insert_ne; [done|].
      intros <-. congruence.
  - done.
Qed.

(** X21.  When [PUT /api/devices/:id] answers 200 with a device,
    [GET /api/devices/:id] then answers 200 with that same device, which
    carries the fields of the body and, for the fields the body leaves out,
    those of the device found before. *)
Theorem put_then_get_device id body st updated :
  (put_device id body st).1 = Ok updated →
  get_device id (put_device id body st).2 = Ok updated
  ∧ ∃ device,
      get_device id st = Ok device
      ∧ updated = patched device body id.
Proof.
  unfold put_device, get_device.
  destruct (list_find _ (devices st)) as [[index device]|] eqn:Hfind; simpl;
    [|done].
  intros [= <-]. split; [|by exists device].
  by rewrite (list_find_insert_same _ _ _ device).
Qed.

Lemma put_then_get_device_witness :
  let body :=
    mkDevicePatch (Some "Meter A") (Some maintenance) None None None in
  let updated :=
    Device.mk "EAGLE-200-12345" "Meter A" maintenance grid
      "Building A - Main Entrance" "UTIL-001" in
  get_device "EAGLE-200-12345"
    (put_device "EAGLE-200-12345" body initial_state).2 = Ok updated
  ∧ ∃ device,
      get_device "EAGLE-200-12345" initial_state = Ok device
      ∧ updated = patched device body "EAGLE-200-12345".
Proof.
  apply put_then_get_device. reflexivity.
Defined.

(** ** Status updates *)

Lemma emit_status_recipients event deviceId status clock st :
  status_to <$> emit_status event deviceId status clock st
  = elements (statusSubscriptions st).
Proof.
  unfold emit_status. generalize (elements (statusSubscriptions st)).
  intros l. revert clock. induction l as [|s l IH]; intros clock; [done|].
  simpl. f_equal. apply (IH (clock ∘ S)).
Qed.

Lemma emit_status_payload event deviceId status clock st :
  Forall (λ e, status_event e = event ∧ status_deviceId e = deviceId
               ∧ status_status e = status)
    (emit_status event deviceId status clock st).
Proof.
  unfold emit_status. generalize (elements (statusSubscriptions st)).
  intros l. revert clock. induction l as [|s l IH]; intros clock; [done|].
  simpl. constructor; [done|]. apply (IH (clock ∘ S)).
Qed.

(** X22.  When a socket sends [device:update-status] for a device of the
    catalog, the device takes the new status and keeps its other fields,
    and each status subscriber, and nobody else, is sent one event, named
    [device:status] and carrying the identifier of the device and the new
    status. *)
Theorem device_update_status_notifies deviceId status clock st device :
  get_device deviceId st = Ok device →
  let result := on_device_update_status deviceId status clock st in
  get_device deviceId result.2
  = Ok (Device.mk (Device.id device) (Device.name device) status
          (Device.type device) (Device.location device)
          (Device.utilityId device))
  ∧ NoDup (status_to <$> result.1)
  ∧ (∀ socketId,
       socketId ∈ status_to <$> result.1 ↔ socketId ∈ statusSubscriptions st)
  ∧ Forall (λ e, status_event e = "device:status"
                 ∧ status_deviceId e = deviceId
                 ∧ status_status e = status) result.1.
Proof.
  unfold get_device, on_device_update_status.
  destruct (list_find _ (devices st)) as [[index found]|] eqn:Hfind; simpl;
    [|done].
  intros [= ->]. split_and!.
  - rewrite (list_find_insert_same _ _ _ device); [done|done|].
    simpl. by apply list_find_Some in Hfind as (_ & Hid & _).
  - rewrite emit_status_recipients. apply NoDup_elements.
  - intros socketId. rewrite emit_status_recipients. apply elem_of_elements.
  - apply emit_status_payload.
Qed.

Lemma device_update_status_notifies_witness :
  let result :=
    on_device_update_status "EAGLE-200-11111" active (λ k, 5000 + Z.of_nat k)
      sample_subscribed in
  get_device "EAGLE-200-11111" result.2
  = Ok (Device.mk "EAGLE-200-11111" "Device 2" active wind
          "Building B - West Wing" "UTIL-002")
  ∧ NoDup (status_to <$> result.1)
  ∧ (∀ socketId,
       socketId ∈ status_to <$> result.1
       ↔ socketId ∈ statusSubscriptions sample_subscribed)
  ∧ Forall (λ e, status_event e = "device:status"
                 ∧ status_deviceId e = "EAGLE-200-11111"
                 ∧ status_status e = active) result.1.
Proof.
  apply (device_update_status_notifies "EAGLE-200-11111" active
           (λ k, 5000 + Z.of_nat k) sample_subscribed
           (Device.mk "EAGLE-200-11111" "Device 2" inactive wind
              "Building B - West Wing" "UTIL-002")).
  reflexivity.
Defined.

(** X23.  The mutation [updateDevice] on a device of the catalog stores the
    device with the fields of the input over the former ones.  When the
    input sets a status, one [status:update] event carrying that status goes
    to each status subscriber and to nobody else; when it does not, nobody
    is notified. *)
Theorem updateDevice_notifies id input clock st device :
  get_device id st = Ok device →
  let result := graphql_updateDevice id input clock st in
  get_device id result.2
  = Ok (patched device
          (mkDevicePatch (input_name input) (input_status input)
             (input_type input) (input_location input) None) id)
  ∧ (input_status input = None → result.1.2 = [])
  ∧ ∀ status, input_status input = Some status →
      status_to <$> result.1.2 = elements (statusSubscriptions st)
      ∧ Forall (λ e, status_event e = "status:update"
                     ∧ status_deviceId e = id
                     ∧ status_status e = status) result.1.2.
Proof.
  unfold get_device, graphql_updateDevice.
  destruct (list_find _ (devices st)) as [[index found]|] eqn:Hfind; simpl;
    [|done].
  intros [= ->]. split_and!.
  - by rewrite (list_find_insert_same _ _ _ device).
  - by intros ->.
  - intros status ->. simpl. split.
    + by rewrite emit_status_recipients.
    + apply emit_status_payload.
Qed.

Lemma updateDevice_notifies_witness :
  let input := mkDeviceUpdateInput None (Some maintenance) None None in
  let clock := λ k : nat, 5000 + Z.of_nat k in
  let result :=
    graphql_updateDevice "EAGLE-200-12345" input clock sample_subscribed in
  get_device "EAGLE-200-12345" result.2
  = Ok (patched grid_device
          (mkDevicePatch (input_name input) (input_status input)
             (input_type input) (input_location input) None)
          "EAGLE-200-12345")
  ∧ (input_status input = None → result.1.2 = [])
  ∧ ∀ status, input_status input = Some status →
      status_to <$> result.1.2
      = elements (statusSubscriptions sample_subscribed)
      ∧ Forall (λ e, status_event e = "status:update"
                     ∧ status_deviceId e = "EAGLE-200-12345"
                     ∧ status_status e = status) result.1.2.
Proof.
  apply (updateDevice_notifies "EAGLE-200-12345"
           (mkDeviceUpdateInput None (Some maintenance) None None)
           (λ k : nat, 5000 + Z.of_nat k) sample_subscribed grid_device).
  reflexivity.
Defined.

(** ** GraphQL views *)

Lemma sort_insert_newest_first x l :
  StronglySorted ts_ge l →
  StronglySorted ts_ge (sort_insert compareNewestFirst x l).
Proof.
  induction 1 as [|y l Hl IH Hy]; simpl.
  - repeat constructor.
  - unfold compareNewestFirst at 1.
    destruct (Z.leb_spec (EnergyReading.timestamp y - EnergyReading.timestamp x) 0)
      as [Hle|Hgt].
    + constructor; [by constructor|].
      constructor; [unfold ts_ge, ts_le; lia|].
      eapply Forall_impl; [exact Hy|]. unfold ts_ge, ts_le. intros z Hz. lia.
    + constructor; [done|].
      rewrite sort_insert_Permutation.
      constructor; [unfold ts_ge, ts_le; lia|done].
Qed.

Lemma array_sort_newest_first l :
  StronglySorted ts_ge (array_sort compareNewestFirst l).
Proof.
  induction l as [|x l IH]; simpl; [constructor|].
  by apply sort_insert_newest_first.
Qed.

Lemma device_view_spec device st :
  let view := device_view device st in
  view_device view = device
  ∧ view_readings view ≡ₚ history (Device.id device) st
  ∧ StronglySorted ts_ge (view_readings view)
  ∧ view_lastReading view = head (view_readings view).
Proof.
  unfold device_view, history.
  destruct (getDeviceReadings (Device.id device) (readings st)) as [|r l] eqn:Hh.
  - simpl. split_and!; [done|done|constructor|done].
  - change (0 <? length (r :: l))%nat with true. cbv iota zeta.
    cbn [view_device view_readings view_lastReading].
    split_and!; [done|apply array_sort_Permutation|
                 apply array_sort_newest_first|done].
Qed.



Lemma array_slice_sublist {A : Type} (start end_ : Z) (l : list A) :
  array_slice start end_ l `sublist_of` l.
Proof.
  unfold array_slice. etrans; [apply sublist_take|apply sublist_drop].
Qed.

Lemma array_slice_length {A : Type} (start n : Z) (l : list A) :
  0 ≤ start → 0 < n →
  length (array_slice start (start + n) l)
  = Z.to_nat (Z.min n (Z.max 0 (Z.of_nat (length l) - start))).
Proof.
  intros Hstart Hn. unfold array_slice, slice_index.
  rewrite length_take, length_drop.
  destruct (Z.ltb_spec start 0) as [?|_]; [lia|].
  destruct (Z.ltb_spec (start + n) 0) as [?|_]; lia.
Qed.

Lemma filter_devices_spec filter_arg ds :
  filter_devices filter_arg ds `sublist_of` ds
  ∧ ∀ d, d ∈ filter_devices filter_arg ds ↔ d ∈ ds ∧ matches_filter filter_arg d.
Proof.
  unfold filter_devices, matches_filter.
  destruct filter_arg as [[types statuses]|]; simpl; [|by split; [|tauto]].
  destruct types as [types|], statuses as [statuses|]; split;
    try done; try apply sublist_filter;
    try (etrans; apply sublist_filter);
    intros d; rewrite ?list_elem_of_filter; naive_solver.
Qed.

Lemma array_slice_all {A : Type} (l : list A) :
  array_slice 0 (Z.of_nat (length l)) l = l.
Proof.
  unfold array_slice.
  assert (slice_index (Z.of_nat (length l)) 0 = 0) as ->.
  { unfold slice_index. destruct (Z.ltb_spec 0 0); lia. }
  assert (slice_index (Z.of_nat (length l)) (Z.of_nat (length l))
          = Z.of_nat (length l)) as ->.
  { unfold slice_index. destruct (Z.ltb_spec (Z.of_nat (length l)) 0); lia. }
  rewrite Z.sub_0_r, Nat2Z.id. change (Z.to_nat 0) with 0%nat.
  rewrite drop_0. by apply take_ge.
Qed.

Lemma view_device_of_views (ds : list Device.t) st :
  view_device <$> ((λ device, device_view device st) <$> ds) = ds.
Proof.
  induction ds as [|d ds IH]; [done|].
  rewrite !fmap_cons, IH. f_equal. by destruct (device_view_spec d st) as (-> & _).
Qed.

(** X25.  Whatever the filter, the limit and the offset, the query
    [devices] returns views of devices of the catalog, in catalog order,
    each of which passes the filter; and [total] is the number of items the
    same query returns without limit nor offset, not the size of the
    page. *)
Theorem graphql_devices_items filter_arg limit offset st :
  let response := graphql_devices filter_arg limit offset st in
  view_device <$> items response `sublist_of` devices st
  ∧ Forall (λ view, view = device_view (view_device view) st
                    ∧ matches_filter filter_arg (view_device view))
      (items response)
  ∧ total response
    = length (items (graphql_devices filter_arg None None st)).
Proof.
  unfold graphql_devices. cbn [items total].
  destruct (filter_devices_spec filter_arg (devices st)) as [Hsub Hmatch].
  set (filteredDevices := filter_devices filter_arg (devices st)) in *.
  set (page := array_slice _ _ filteredDevices).
  assert (page `sublist_of` filteredDevices) as Hpage
    by apply array_slice_sublist.
  split_and!.
  - rewrite view_device_of_views. by etrans.
  - apply Forall_fmap, Forall_forall. intros d Hd. simpl.
    split; [by destruct (device_view_spec d st) as (-> & _)|].
    destruct (device_view_spec d st) as (-> & _).
    apply Hmatch. eapply elem_of_sublist; eauto.
  - simpl. rewrite length_fmap.
    by rewrite array_slice_all.
Qed.

(** X26.  With a positive limit and an offset that is absent or not
    negative, the page of the query [devices] holds [limit] items, or fewer
    when fewer than [limit] devices pass the filter from the offset on
    (none when the offset is past the last one). *)
Theorem graphql_devices_page_size filter_arg limit offset st :
  0 < limit → 0 ≤ default 0 offset →
  let response := graphql_devices filter_arg (Some limit) offset st in
  length (items response)
  = Z.to_nat (Z.min limit
                (Z.max 0 (Z.of_nat (total response) - default 0 offset))).
Proof.
  intros Hlimit Hoffset. unfold graphql_devices. cbn [items total].
  destruct (Z.eqb_spec limit 0) as [?|_]; [lia|].
  rewrite length_fmap. by apply array_slice_length.
Qed.

Lemma graphql_devices_page_size_witness :
  let response := graphql_devices None (Some 3) (Some 2) initial_state in
  length (items response)
  = Z.to_nat (Z.min 3 (Z.max 0 (Z.of_nat (total response) - default 0 (Some 2)))).
Proof.
  apply (graphql_devices_page_size None 3 (Some 2) initial_state).
  - lia.
  - simpl. lia.
Defined.

(** ** Reading back a batch *)

(** X27.  After a [POST /api/readings/batch], [GET /api/readings/:deviceId]
    for a well-formed identifier that the batch has readings for answers
    200 with the former history followed by all the readings of the batch
    for that device, in the order of the batch: the batch evicts nothing,
    and it stores readings whether or not the catalog knows the device. *)
Theorem batch_then_get_readings batchReadings st created deviceId :
  (post_readings_batch batchReadings st).1.1 = CreatedBatch created →
  validateDeviceId deviceId = true →
  getDeviceReadings deviceId created ≠ [] →
  length created = length batchReadings
  ∧ get_readings deviceId (post_readings_batch batchReadings st).2
    = Ok (history deviceId st ++ getDeviceReadings deviceId created).
Proof.
  unfold post_readings_batch, get_readings, history. simpl.
  intros [= <-] -> Hsome. split; [apply length_fmap|]. simpl.
  unfold getDeviceReadings in *. rewrite filter_app, length_app.
  destruct (filter _ (_ <$> batchReadings)) as [|r l]; [done|].
  simpl. by rewrite Nat.add_succ_r.
Qed.

Lemma batch_then_get_readings_witness :
  let created :=
    (λ '(fresh_id, now, reading), batch_reading fresh_id now reading)
      <$> sample_batch 101 in
  length created = length (sample_batch 101)
  ∧ get_readings "EAGLE-200-12345"
      (post_readings_batch (sample_batch 101) initial_state).2
    = Ok (history "EAGLE-200-12345" initial_state
          ++ getDeviceReadings "EAGLE-200-12345" created).
Proof.
  apply batch_then_get_readings.
  - reflexivity.
  - reflexivity.
  - vm_compute. discriminate.
Defined.
